(** * LSBSteg: least-significant-bit steganography (src/LSBSteg.py)

    A shallow embedding of the bit buffer, the capacity model, the encoder
    [hide_data] and the decoder [recover_data] of LSBSteg.py, and the
    properties of the specification checked against them.

    Conventions of the embedding.
    - Python integers are [Z].  [a % m] with [0 < m] is [Z.modulo], [a >> n]
      and [a << n] with [0 <= n] are [Z.shiftr] and [Z.shiftl], [&] and [|]
      are [Z.land] and [Z.lor].  Python raises ValueError on a negative shift
      count; the shift counts of this program are [num_lsb], 8, the header
      width and [buffer_length], and the statements below are about
      [1 <= num_lsb <= 8].
    - The module-level globals [buffer] and [buffer_length] are the record
      [BitBuffer]; the files and the image an operation works on are threaded
      with it ([HideState], [RecoverState]).
    - A PIL image (mode RGB) is its size and its pixels in row-major order;
      [getpixel] and [putpixel] outside the image raise IndexError.  The
      coordinates of this program start at 0 and only grow, so PIL's reading
      of negative coordinates never applies.
    - [hide_data] and [recover_data] are modelled as runs of their own: the
      image each one opens is its argument ([max_bits_to_hide] reads
      whichever of the globals [image] and [steg_image] is bound).
    - The [while] loops take a fuel; the top-level functions supply one unit
      per pixel of the image (plus one), which is shown to be enough. *)

From Stdlib Require Import ZArith List Lia Bool.
From Stdlib.Strings Require Import Byte.
From stdpp Require Import base list.

Local Open Scope Z_scope.

(** ** Exceptions and outcomes of a run *)

Inductive exn : Type :=
| IndexError    (* PIL "image index out of range", or a list index *)
| StructError.  (* struct.error of struct.pack *)

Inductive outcome : Type :=
| Finished
| Raised (e : exn)
| OutOfFuel.

(** [for i in range(..)] over a body that may raise. *)
Fixpoint for_range {S : Type} (body : nat -> S -> S * outcome)
    (range : list nat) (s : S) : S * outcome :=
  match range with
  | [] => (s, Finished)
  | i :: range' =>
      match body i s with
      | (s', Finished) => for_range body range' s'
      | r => r
      end
  end.

(** ** The image (PIL.Image, RGB) *)

Record Image : Type := mkImage {
  im_size : Z * Z;              (* image.size = (width, height) *)
  pixels : list (list Z)        (* row-major, one list of channels per pixel *)
}.

Definition in_image (im : Image) (xy : Z * Z) : bool :=
  (0 <=? fst xy) && (fst xy <? fst (im_size im)) &&
  (0 <=? snd xy) && (snd xy <? snd (im_size im)).

Definition pixel_index (im : Image) (xy : Z * Z) : nat :=
  Z.to_nat (snd xy * fst (im_size im) + fst xy).

(** image.getpixel((x, y)); [None] is IndexError. *)
Definition getpixel (im : Image) (xy : Z * Z) : option (list Z) :=
  if in_image im xy then pixels im !! pixel_index im xy else None.

(** image.putpixel((x, y), rgb); [None] is IndexError. *)
Definition putpixel (im : Image) (xy : Z * Z) (rgb : list Z) : option Image :=
  if in_image im xy
  then Some {| im_size := im_size im;
               pixels := <[pixel_index im xy := rgb]> (pixels im) |}
  else None.

(** An RGB image as PIL hands it out: [width * height] pixels of three
    8-bit channels. *)
Definition wf_pixel (p : list Z) : Prop :=
  length p = 3%nat /\ Forall (fun c => 0 <= c < 256) p.

Definition wf_image (im : Image) : Prop :=
  0 <= fst (im_size im) /\ 0 <= snd (im_size im) /\
  length (pixels im) = Z.to_nat (fst (im_size im) * snd (im_size im)) /\
  Forall wf_pixel (pixels im).

Definition wf_pixelb (p : list Z) : bool :=
  (length p =? 3)%nat && forallb (fun c => (0 <=? c) && (c <? 256)) p.

Definition wf_imageb (im : Image) : bool :=
  (0 <=? fst (im_size im)) && (0 <=? snd (im_size im)) &&
  (length (pixels im) =? Z.to_nat (fst (im_size im) * snd (im_size im)))%nat &&
  forallb wf_pixelb (pixels im).

(** ** Bytes *)

(** int.from_bytes(new_byte, 'big') for a single byte. *)
Definition int_from_bytes (b : byte) : Z := Z.of_N (Byte.to_N b).

(** struct.pack('1B', bits); [None] is struct.error. *)
Definition struct_pack_1B (bits : Z) : option byte :=
  if (0 <=? bits) && (bits <? 256) then Byte.of_N (Z.to_N bits) else None.

(** int.bit_length(): the number of binary digits of the absolute value. *)
Definition bit_length (m : Z) : Z :=
  match m with
  | Z0 => 0
  | Zpos p | Zneg p => Z.pos (Pos.size p)
  end.

(** ** The bit buffer *)

Record BitBuffer : Type := mkBuf {
  buffer : Z;
  buffer_length : Z
}.

Definition reset_buffer : BitBuffer := {| buffer := 0; buffer_length := 0 |}.

Definition and_mask (index n : Z) : Z :=
  255 - Z.shiftl (Z.shiftl 1 n - 1) index.

(** Reads a byte from the input file and adds it to the buffer; at the end
    of the file the length is set to -1. *)
Definition read_byte_to_buffer (input_file : list byte) (b : BitBuffer)
    : list byte * BitBuffer :=
  match input_file with
  | new_byte :: rest =>
      (rest,
       {| buffer := buffer b + Z.shiftl (int_from_bytes new_byte) (buffer_length b);
          buffer_length := buffer_length b + 8 |})
  | [] => ([], {| buffer := 0; buffer_length := -1 |})
  end.

(** Removes the first [n] bits from the buffer and returns them. *)
Definition read_bits_from_buffer (n : Z) (b : BitBuffer) : Z * BitBuffer :=
  let bits := buffer b mod Z.shiftl 1 n in
  (bits, {| buffer := Z.shiftr (buffer b) n;
            buffer_length := buffer_length b - n |}).

(** ** Capacity *)

Section Steg.

(** Number of least significant bits used per colour channel (a global of
    the module). *)
Variable num_lsb : Z.

Definition max_bits_to_hide (im : Image) : Z :=
  3 * fst (im_size im) * snd (im_size im) * num_lsb.

Definition bits_in_max_filesize (im : Image) : Z :=
  bit_length (max_bits_to_hide im).

(** ** Encoder *)

Record HideState : Type := mkHide {
  hide_buf : BitBuffer;
  input_file : list byte;      (* what is left to read of the input file *)
  image : Image
}.

(** Body of [for i in range(3)] in [hide_data]; [rgb] is the local list. *)
Definition hide_channel (i : nat) (s : HideState * list Z)
    : (HideState * list Z) * outcome :=
  let '(st, rgb) := s in
  let st1 :=
    if buffer_length (hide_buf st) <? num_lsb
    then let '(f, b) := read_byte_to_buffer (input_file st) (hide_buf st) in
         {| hide_buf := b; input_file := f; image := image st |}
    else st in
  if negb (buffer_length (hide_buf st1) =? -1)
  then match rgb !! i with
       | Some c =>
           let c1 := Z.land c (and_mask 0 num_lsb) in
           let '(bits, b) := read_bits_from_buffer num_lsb (hide_buf st1) in
           (({| hide_buf := b; input_file := input_file st1; image := image st1 |},
             <[i := Z.lor c1 bits]> rgb), Finished)
       | None => ((st1, rgb), Raised IndexError)
       end
  else ((st1, rgb), Finished).

(** One pixel: lines 128-139 of [hide_data]. *)
Definition hide_pixel (st : HideState) (x y : Z) : HideState * outcome :=
  match getpixel (image st) (x, y) with
  | None => (st, Raised IndexError)
  | Some rgb =>
      match for_range hide_channel (seq 0 3) (st, rgb) with
      | ((st', rgb'), Finished) =>
          match putpixel (image st') (x, y) rgb' with
          | Some im' =>
              ({| hide_buf := hide_buf st'; input_file := input_file st';
                  image := im' |}, Finished)
          | None => (st', Raised IndexError)
          end
      | ((st', _), o) => (st', o)
      end
  end.

(** The [while] loop of [hide_data]; one unit of fuel per iteration. *)
Fixpoint hide_loop (fuel : nat) (st : HideState) (x y : Z)
    : HideState * outcome :=
  if negb (buffer_length (hide_buf st) =? -1) && (y <? snd (im_size (image st)))
  then match fuel with
       | O => (st, OutOfFuel)
       | S fuel' =>
           match hide_pixel st x y with
           | (st', Finished) =>
               let x := x + 1 in
               if x >=? fst (im_size (image st'))
               then hide_loop fuel' st' 0 (y + 1)
               else hide_loop fuel' st' x y
           | r => r
           end
       end
  else (st, Finished).

Definition pixel_count (im : Image) : nat :=
  Z.to_nat (fst (im_size im) * snd (im_size im)).

(** [hide_data]: [im] is the opened input image, [file] the content of the
    input file; the image of the final state is the one saved. *)
Definition hide_data (im : Image) (file : list byte) : HideState * outcome :=
  let b := reset_buffer in
  let get_filesize := Z.of_nat (length file) in
  let b := {| buffer := buffer b + get_filesize;
              buffer_length := buffer_length b + bits_in_max_filesize im |} in
  hide_loop (S (pixel_count im))
    {| hide_buf := b; input_file := file; image := im |} 0 0.

(** ** Decoder *)

Record RecoverState : Type := mkRecover {
  recover_buf : BitBuffer;
  output_file : list byte;     (* what has been written, in order *)
  pos : Z * Z;                 (* the locals x and y *)
  bytes_to_recover : Z
}.

(** Body of [for i in range(3)] in both phases of [recover_data]. *)
Definition recover_channel (rgb : list Z) (i : nat) (b : BitBuffer)
    : BitBuffer * outcome :=
  match rgb !! i with
  | Some c =>
      ({| buffer := buffer b + Z.shiftl (c mod Z.shiftl 1 num_lsb) (buffer_length b);
          buffer_length := buffer_length b + num_lsb |}, Finished)
  | None => (b, Raised IndexError)
  end.

(** Reading the pixel at the current position into the buffer (lines
    162-167 and 179-184). *)
Definition recover_pixel (steg_image : Image) (st : RecoverState)
    : RecoverState * outcome :=
  match getpixel steg_image (pos st) with
  | None => (st, Raised IndexError)
  | Some rgb =>
      let '(b, o) := for_range (recover_channel rgb) (seq 0 3) (recover_buf st) in
      ({| recover_buf := b; output_file := output_file st; pos := pos st;
          bytes_to_recover := bytes_to_recover st |}, o)
  end.

(** Lines 169-172: the row wrap of the header phase. *)
Definition header_advance (width : Z) (xy : Z * Z) : Z * Z :=
  let x := fst xy + 1 in
  if x >? width then (0, snd xy + 1) else (x, snd xy).

(** Lines 186-189: the row wrap of the byte-recovery phase. *)
Definition body_advance (width : Z) (xy : Z * Z) : Z * Z :=
  let x := fst xy + 1 in
  if x >=? width then (0, snd xy + 1) else (x, snd xy).

Definition set_pos (st : RecoverState) (xy : Z * Z) : RecoverState :=
  {| recover_buf := recover_buf st; output_file := output_file st; pos := xy;
     bytes_to_recover := bytes_to_recover st |}.

(** math.ceil(a / b) for [0 <= a] and [0 < b] (the quotient of two small
    integers is not close enough to an integer for the float division to
    round across it). *)
Definition ceil_div (a b : Z) : Z := (a + b - 1) / b.

Definition pixels_used_for_filesize (steg_image : Image) : Z :=
  ceil_div (bits_in_max_filesize steg_image) (3 * num_lsb).

(** Body of the header [for] loop (lines 161-172). *)
Definition header_step (steg_image : Image) (_ : nat) (st : RecoverState)
    : RecoverState * outcome :=
  match recover_pixel steg_image st with
  | (st', Finished) =>
      (set_pos st' (header_advance (fst (im_size steg_image)) (pos st')), Finished)
  | r => r
  end.

(** The inner [while] of the byte-recovery phase (lines 191-196). *)
Fixpoint write_loop (fuel : nat) (st : RecoverState) : RecoverState * outcome :=
  if (buffer_length (recover_buf st) >=? 8) && (bytes_to_recover st >? 0)
  then match fuel with
       | O => (st, OutOfFuel)
       | S fuel' =>
           let '(bits, b) := read_bits_from_buffer 8 (recover_buf st) in
           match struct_pack_1B bits with
           | Some c =>
               write_loop fuel'
                 {| recover_buf := b; output_file := output_file st ++ [c];
                    pos := pos st; bytes_to_recover := bytes_to_recover st - 1 |}
           | None =>
               ({| recover_buf := b; output_file := output_file st;
                   pos := pos st; bytes_to_recover := bytes_to_recover st |},
                Raised StructError)
           end
       end
  else (st, Finished).

(** The outer [while] of the byte-recovery phase (lines 178-196). *)
Fixpoint recover_loop (fuel : nat) (steg_image : Image) (st : RecoverState)
    : RecoverState * outcome :=
  if bytes_to_recover st >? 0
  then match fuel with
       | O => (st, OutOfFuel)
       | S fuel' =>
           match recover_pixel steg_image st with
           | (st1, Finished) =>
               let st2 := set_pos st1 (body_advance (fst (im_size steg_image)) (pos st1)) in
               match write_loop (Z.to_nat (buffer_length (recover_buf st2))) st2 with
               | (st3, Finished) => recover_loop fuel' steg_image st3
               | r => r
               end
           | r => r
           end
       end
  else (st, Finished).

(** The header phase of [recover_data] (lines 155-172). *)
Definition recover_header (steg_image : Image) : RecoverState * outcome :=
  for_range (header_step steg_image)
    (seq 0 (Z.to_nat (pixels_used_for_filesize steg_image)))
    {| recover_buf := reset_buffer; output_file := []; pos := (0, 0);
       bytes_to_recover := 0 |}.

(** Line 175: the size of the file to recover is popped from the buffer. *)
Definition pop_header (steg_image : Image) (st : RecoverState) : RecoverState :=
  let '(n, b) := read_bits_from_buffer (bits_in_max_filesize steg_image) (recover_buf st) in
  {| recover_buf := b; output_file := output_file st; pos := pos st;
     bytes_to_recover := n |}.

(** [recover_data]: [steg_image] is the opened image; the output file of
    the final state is what has been written. *)
Definition recover_data (steg_image : Image) : RecoverState * outcome :=
  match recover_header steg_image with
  | (st, Finished) =>
      recover_loop (S (pixel_count steg_image)) steg_image (pop_header steg_image st)
  | r => r
  end.

End Steg.

(** ** Analysis *)

(** [analysis]: the four numbers it prints, in order: the resolution, the
    bytes that can be hidden, int(max_bits_to_hide() / 8), the size of the
    input file, and the bytes of the filesize tag,
    math.ceil(bits_in_max_filesize() / 8).  (The float quotients are those
    of integers far below 2^53.) *)
Definition analysis (num_lsb : Z) (im : Image) (file : list byte)
    : (Z * Z) * Z * Z * Z :=
  (im_size im,
   max_bits_to_hide num_lsb im / 8,
   Z.of_nat (length file),
   ceil_div (bits_in_max_filesize num_lsb im) 8).

(** ** Sample data *)

Definition blank (w h : Z) (c : Z) : Image :=
  {| im_size := (w, h); pixels := repeat [c; c; c] (Z.to_nat (w * h)) |}.

Definition im2x2 : Image := blank 2 2 0.
Definition im4x1 : Image := blank 4 1 0.


(** ** Vocabulary of the statements *)

(** The two operations on the buffer: filling it with the next byte of the
    input file, and popping [n] bits. *)
Inductive buffer_op : Type :=
| Fill
| Pop (n : Z).

Definition buffer_step (op : buffer_op) (s : list byte * BitBuffer)
    : list byte * BitBuffer :=
  match op with
  | Fill => read_byte_to_buffer (fst s) (snd s)
  | Pop n => (fst s, snd (read_bits_from_buffer n (snd s)))
  end.

Definition buffer_run (ops : list buffer_op) (s : list byte * BitBuffer)
    : list byte * BitBuffer :=
  fold_left (fun s op => buffer_step op s) ops s.

Definition exhausted (b : BitBuffer) : bool := buffer_length b =? -1.

(** The side conditions of the invariant: a pop of [n] bits finds at least
    [n] bits, and no step leaves the buffer in the exhausted state. *)
Fixpoint legal (ops : list buffer_op) (s : list byte * BitBuffer) : bool :=
  match ops with
  | [] => true
  | op :: ops' =>
      match op with
      | Fill => true
      | Pop n => (0 <=? n) && (n <=? buffer_length (snd s))
      end
      && negb (exhausted (snd (buffer_step op s)))
      && legal ops' (buffer_step op s)
  end.

Definition buffer_inv (b : BitBuffer) : Prop :=
  0 <= buffer_length b /\ 0 <= buffer b < 2 ^ buffer_length b.

Definition exhausted_buffer : BitBuffer := {| buffer := 0; buffer_length := -1 |}.

Definition no_struct_error (o : outcome) : Prop :=
  o = Finished \/ o = Raised IndexError.

(** The pixels left from a position to the end of the image. *)
Definition room (im : Image) (xy : Z * Z) : nat :=
  if in_image im xy
  then Z.to_nat (fst (im_size im) * snd (im_size im) - (snd xy * fst (im_size im) + fst xy))
  else 0%nat.

(** What holds at the head of the byte-recovery loop, when the header is
    [B]: the buffer holds the bits read so far less the header and the bytes
    written, and a pixel is left as long as a byte is. *)
Definition body_inv (n : Z) (im : Image) (B : Z) (st : RecoverState) : Prop :=
  let w := fst (im_size im) in
  let h := snd (im_size im) in
  let idx := snd (pos st) * w + fst (pos st) in
  0 <= fst (pos st) < w /\ 0 <= snd (pos st) /\
  0 <= bytes_to_recover st <= B /\
  buffer_length (recover_buf st) =
    3 * n * idx - bits_in_max_filesize n im - 8 * (B - bytes_to_recover st) /\
  (0 < bytes_to_recover st -> idx < w * h).

(** The row wraps as the specification words them: the header phase wraps
    when [x] reaches [width], the byte-recovery phase when [x > width]. *)
Definition spec_header_advance (width : Z) (xy : Z * Z) : Z * Z :=
  let x := fst xy + 1 in
  if x <? width then (x, snd xy) else (0, snd xy + 1).

Definition spec_body_advance (width : Z) (xy : Z * Z) : Z * Z :=
  let x := fst xy + 1 in
  if x >? width then (0, snd xy + 1) else (x, snd xy).

(** Writing [v] into the low [n] bits of the channel [c], and the bit [k]
    of a byte of the file. *)
Definition put_lsb (n c v : Z) : Z := Z.lor (Z.land c (and_mask 0 n)) v.
Definition bit_of (b : byte) (k : Z) : Z := Z.shiftr (int_from_bytes b) k mod 2.

(** *** The stream of bits, as the encoder writes it and the decoder reads it *)

(** The value of a list of bytes, first byte lowest. *)
Fixpoint le_value (file : list byte) : Z :=
  match file with
  | [] => 0
  | b :: rest => int_from_bytes b + 256 * le_value rest
  end.

(** The byte of the low 8 bits of [v], and the [k] low bytes of [v]. *)
Definition byte_of_Z (v : Z) : byte :=
  match Byte.of_N (Z.to_N (v mod 256)) with
  | Some b => b
  | None => x00
  end.

Fixpoint le_bytes (k : nat) (v : Z) : list byte :=
  match k with
  | O => []
  | S k' => byte_of_Z v :: le_bytes k' (v / 256)
  end.

(** What the encoder has still to write: the bits of the buffer, then the
    bytes left in the file; and how many bits that is. *)
Definition pending (b : BitBuffer) (file : list byte) : Z :=
  buffer b + 2 ^ buffer_length b * le_value file.

Definition pending_bits (b : BitBuffer) (file : list byte) : Z :=
  buffer_length b + 8 * Z.of_nat (length file).

(** Writing the [T] bits of [W] into the low [n] bits of a list of channels,
    [n] bits per channel, until fewer than [n] bits are left. *)
Fixpoint write_stream (n W T : Z) (chs : list Z) : list Z :=
  match chs with
  | [] => []
  | c :: chs' =>
      if n <=? T
      then put_lsb n c (W mod 2 ^ n) :: write_stream n (W / 2 ^ n) (T - n) chs'
      else c :: chs'
  end.

(** The low [n] bits of a list of channels, read as one number, first
    channel lowest. *)
Fixpoint lsb_stream (n : Z) (chs : list Z) : Z :=
  match chs with
  | [] => 0
  | c :: chs' => c mod 2 ^ n + 2 ^ n * lsb_stream n chs'
  end.

(** The channels of an image, in the order the two loops visit them. *)
Definition channels (im : Image) : list Z := concat (pixels im).

(** The states of the encoder's buffer that the loop of [hide_data] meets:
    a number of bits, or the exhausted state with the file at its end. *)
Definition hide_good (st : HideState) : Prop :=
  0 <= buffer_length (hide_buf st) \/
  (hide_buf st = exhausted_buffer /\ input_file st = []).

Definition hide_pending (st : HideState) : Z :=
  pending (hide_buf st) (input_file st).

Definition hide_pending_bits (st : HideState) : Z :=
  pending_bits (hide_buf st) (input_file st).

(** What holds at the head of the byte-recovery loop, in terms of the
    stream of the image: the buffer holds the stream of the pixels read so
    far less the header and the bytes written, and the bytes written are the
    first bytes of the stream after the header. *)
Definition recover_inv (n : Z) (im : Image) (B : Z) (st : RecoverState) : Prop :=
  let idx := snd (pos st) * fst (im_size im) + fst (pos st) in
  let j := B - bytes_to_recover st in
  let hb := bits_in_max_filesize n im in
  body_inv n im B st /\
  0 <= buffer_length (recover_buf st) /\
  buffer (recover_buf st) =
    lsb_stream n (concat (take (Z.to_nat idx) (pixels im))) / 2 ^ (hb + 8 * j) /\
  output_file st = le_bytes (Z.to_nat j) (lsb_stream n (channels im) / 2 ^ hb).

(** * Properties *)

(** ** Arithmetic of shifts and masks *)

Lemma shiftl_1 (n : Z) : 0 <= n -> Z.shiftl 1 n = 2 ^ n.
Proof. intros Hn. rewrite Z.shiftl_mul_pow2 by lia. lia. Qed.

Lemma and_mask_0 (n : Z) : 0 <= n -> and_mask 0 n = 256 - 2 ^ n.
Proof.
  intros Hn. unfold and_mask. rewrite Z.shiftl_0_r, shiftl_1 by lia. lia.
Qed.

Lemma testbit_byte_high (c i : Z) : 0 <= c < 256 -> 8 <= i -> Z.testbit c i = false.
Proof.
  intros Hc Hi. destruct (Z.eq_dec c 0) as [->|Hne].
  - apply Z.bits_0.
  - apply Z.bits_above_log2; [lia|].
    assert (Z.log2 c < 8); [|lia].
    apply Z.log2_lt_pow2; lia.
Qed.

Lemma testbit_small (b n i : Z) : 0 <= n -> 0 <= b < 2 ^ n -> n <= i -> Z.testbit b i = false.
Proof.
  intros Hn Hb Hi. destruct (Z.eq_dec b 0) as [->|Hne].
  - apply Z.bits_0.
  - apply Z.bits_above_log2; [lia|].
    assert (Z.log2 b < n); [|lia].
    apply Z.log2_lt_pow2; lia.
Qed.

(** Clearing the low [n] bits of a byte with [and_mask 0 n]. *)
Lemma land_and_mask (c n : Z) :
  0 <= n <= 8 -> 0 <= c < 256 ->
  Z.land c (and_mask 0 n) = Z.shiftl (Z.shiftr c n) n.
Proof.
  intros Hn Hc. rewrite and_mask_0 by lia.
  replace (256 - 2 ^ n) with (Z.shiftl (Z.ones (8 - n)) n).
  2:{ rewrite Z.shiftl_mul_pow2, Z.ones_equiv by lia.
      assert (H256 : 2 ^ (8 - n) * 2 ^ n = 256).
      { rewrite <- Z.pow_add_r by lia. replace (8 - n + n) with 8 by lia. reflexivity. }
      lia. }
  apply Z.bits_inj'. intros i Hi.
  rewrite Z.land_spec, !Z.shiftl_spec by lia.
  destruct (Z.ltb_spec i n) as [Hlt|Hge].
  - rewrite (Z.testbit_neg_r (Z.ones (8 - n)) (i - n)) by lia.
    rewrite (Z.testbit_neg_r (Z.shiftr c n) (i - n)) by lia.
    apply andb_false_r.
  - rewrite Z.shiftr_spec by lia. replace (i - n + n) with i by lia.
    rewrite Z.testbit_ones by lia.
    destruct (Z.ltb_spec i 8) as [Hlt8|Hge8].
    + replace (0 <=? i - n) with true by (symmetry; apply Z.leb_le; lia).
      replace (i - n <? 8 - n) with true by (symmetry; apply Z.ltb_lt; lia).
      apply andb_true_r.
    + rewrite testbit_byte_high by lia. reflexivity.
Qed.

Lemma lor_shiftl_low (q b n : Z) :
  0 <= n -> 0 <= b < 2 ^ n ->
  Z.lor (Z.shiftl q n) b = q * 2 ^ n + b.
Proof.
  intros Hn Hb.
  rewrite <- Z.shiftl_mul_pow2 by lia.
  rewrite <- Z.lxor_lor, <- Z.add_nocarry_lxor; [reflexivity| |];
  apply Z.bits_inj'; intros i Hi; rewrite Z.land_spec, Z.shiftl_spec, Z.bits_0 by lia;
  (destruct (Z.ltb_spec i n);
   [rewrite Z.testbit_neg_r by lia; reflexivity
   |rewrite (testbit_small b n i) by lia; apply andb_false_r]).
Qed.

(** What writing [bits] into the low [n] bits of a channel does. *)
Lemma lsb_replace (old bits n : Z) :
  0 <= n <= 8 -> 0 <= old < 256 -> 0 <= bits < 2 ^ n ->
  let new := Z.lor (Z.land old (and_mask 0 n)) bits in
  Z.shiftr new n = Z.shiftr old n /\ 0 <= new < 256 /\ new mod 2 ^ n = bits.
Proof.
  intros Hn Hold Hbits new. subst new.
  rewrite land_and_mask, lor_shiftl_low by lia.
  rewrite !Z.shiftr_div_pow2 by lia.
  assert (Hp : 0 < 2 ^ n) by (apply Z.pow_pos_nonneg; lia).
  assert (Hq : 0 <= old / 2 ^ n) by (apply Z.div_pos; lia).
  assert (H256 : 256 = 2 ^ (8 - n) * 2 ^ n).
  { rewrite <- Z.pow_add_r by lia. replace (8 - n + n) with 8 by lia. reflexivity. }
  assert (Hq8 : old / 2 ^ n < 2 ^ (8 - n)).
  { apply Z.div_lt_upper_bound; lia. }
  repeat split.
  - rewrite Z.div_add_l, (Z.div_small bits) by lia. lia.
  - nia.
  - nia.
  - rewrite Z.add_comm, Z.mod_add, Z.mod_small by lia. reflexivity.
Qed.

(** ** Capacity and header width *)

Lemma bit_length_log2 (m : Z) : 0 < m -> bit_length m = Z.log2 m + 1.
Proof.
  destruct m as [|p|p]; try lia. intros _.
  destruct p as [p|p|]; simpl; try reflexivity; rewrite Pos2Z.inj_succ; lia.
Qed.

Lemma bit_length_bounds (m : Z) :
  0 < m -> 2 ^ (bit_length m - 1) <= m < 2 ^ bit_length m.
Proof.
  intros Hm. rewrite bit_length_log2 by lia.
  replace (Z.log2 m + 1 - 1) with (Z.log2 m) by lia.
  replace (Z.log2 m + 1) with (Z.succ (Z.log2 m)) by lia.
  apply Z.log2_spec. lia.
Qed.

Lemma bit_length_nonneg (m : Z) : 0 <= bit_length m.
Proof. destruct m; simpl; lia. Qed.

(** C6. For all positive width [w], height [h] and [n] in [1,8], the number
    of bits the image can carry, [max_bits_to_hide], is [3 * w * h * n]:
    [n] bits in each of the three channels of each of its pixels. *)
Theorem max_bits_to_hide_formula (im : Image) (w h n : Z) :
  im_size im = (w, h) -> 0 < w -> 0 < h -> 1 <= n <= 8 ->
  max_bits_to_hide n im = 3 * w * h * n /\
  (wf_image im -> max_bits_to_hide n im = n * (3 * Z.of_nat (length (pixels im)))).
Proof.
  intros Hsz Hw Hh Hn. unfold max_bits_to_hide. rewrite Hsz. simpl. split; [reflexivity|].
  intros (_ & _ & Hlen & _). rewrite Hlen, Hsz. simpl. rewrite Z2Nat.id by nia. lia.
Qed.

Lemma max_bits_to_hide_formula_witness :
  max_bits_to_hide 2 (blank 4 1 0) = 3 * 4 * 1 * 2 /\
  (wf_image (blank 4 1 0) ->
   max_bits_to_hide 2 (blank 4 1 0) = 2 * (3 * Z.of_nat (length (pixels (blank 4 1 0))))).
Proof. apply (max_bits_to_hide_formula (blank 4 1 0) 4 1 2); [reflexivity|lia..]. Defined.

(** C5. For all positive [w], [h] and [n] in [1,8] the header width
    [bits_in_max_filesize] is [ceil(log2(3*w*h*n + 1))], the smallest [k]
    with [2^k > 3*w*h*n]; for a 100x100 image with [n = 2] the capacity is
    60000 bits and the header is 16 bits wide. *)
Theorem bits_in_max_filesize_spec (im : Image) (w h n : Z) :
  im_size im = (w, h) -> 0 < w -> 0 < h -> 1 <= n <= 8 ->
  let k := bits_in_max_filesize n im in
  k = Z.log2_up (3 * w * h * n + 1) /\
  3 * w * h * n < 2 ^ k /\
  (forall j, 0 <= j -> 3 * w * h * n < 2 ^ j -> k <= j) /\
  (forall ps, max_bits_to_hide 2 (mkImage (100, 100) ps) = 60000 /\
              bits_in_max_filesize 2 (mkImage (100, 100) ps) = 16).
Proof.
  intros Hsz Hw Hh Hn k. subst k. unfold bits_in_max_filesize, max_bits_to_hide.
  rewrite Hsz. simpl fst. simpl snd.
  assert (Hcap : 0 < 3 * w * h * n) by nia.
  pose proof (bit_length_bounds _ Hcap) as [Hlo Hhi].
  repeat split.
  - rewrite bit_length_log2 by lia.
    rewrite Z.log2_up_eqn by lia.
    replace (Z.pred (3 * w * h * n + 1)) with (3 * w * h * n) by lia. lia.
  - exact Hhi.
  - intros j Hj Hlt.
    destruct (Z_lt_le_dec j (bit_length (3 * w * h * n))) as [Hjk|Hjk]; [|lia].
    assert (2 ^ j <= 2 ^ (bit_length (3 * w * h * n) - 1))
      by (apply Z.pow_le_mono_r; lia).
    lia.
Qed.

Lemma bits_in_max_filesize_spec_witness :
  let k := bits_in_max_filesize 1 im2x2 in
  k = Z.log2_up (3 * 2 * 2 * 1 + 1) /\
  3 * 2 * 2 * 1 < 2 ^ k /\
  (forall j, 0 <= j -> 3 * 2 * 2 * 1 < 2 ^ j -> k <= j) /\
  (forall ps, max_bits_to_hide 2 (mkImage (100, 100) ps) = 60000 /\
              bits_in_max_filesize 2 (mkImage (100, 100) ps) = 16).
Proof. apply (bits_in_max_filesize_spec im2x2 2 2 1); [reflexivity|lia..]. Defined.

(** ** The buffer invariant *)

Lemma int_from_bytes_range (c : byte) : 0 <= int_from_bytes c < 256.
Proof.
  unfold int_from_bytes. pose proof (Byte.to_N_bounded c) as H. lia.
Qed.

Lemma buffer_inv_step (op : buffer_op) (s : list byte * BitBuffer) :
  buffer_inv (snd s) -> legal [op] s = true -> buffer_inv (snd (buffer_step op s)).
Proof.
  destruct s as [file b]. intros [Hlen Hval] Hlegal. simpl in *.
  rewrite andb_true_r in Hlegal. apply andb_true_iff in Hlegal as [Hop Hex].
  destruct op as [|n]; simpl in *.
  - destruct file as [|c rest]; simpl in *; [discriminate|].
    pose proof (int_from_bytes_range c) as Hc.
    split; simpl; [lia|].
    rewrite Z.shiftl_mul_pow2 by lia.
    rewrite Z.pow_add_r by lia. change (2 ^ 8) with 256.
    assert (0 < 2 ^ buffer_length b) by (apply Z.pow_pos_nonneg; lia). nia.
  - apply andb_true_iff in Hop as [H0 Hn].
    apply Z.leb_le in H0, Hn.
    split; simpl; [lia|].
    rewrite Z.shiftr_div_pow2 by lia.
    assert (0 < 2 ^ n) by (apply Z.pow_pos_nonneg; lia).
    split; [apply Z.div_pos; lia|].
    apply Z.div_lt_upper_bound; [lia|].
    rewrite <- Z.pow_add_r by lia. replace (n + (buffer_length b - n)) with (buffer_length b) by lia.
    lia.
Qed.

Lemma buffer_inv_run (ops : list buffer_op) (s : list byte * BitBuffer) :
  buffer_inv (snd s) -> legal ops s = true -> buffer_inv (snd (buffer_run ops s)).
Proof.
  revert s. induction ops as [|op ops IH]; intros s Hinv Hlegal; [exact Hinv|].
  simpl. apply IH.
  - apply buffer_inv_step; [exact Hinv|].
    simpl in *. apply andb_true_iff in Hlegal as [Hl _]. rewrite Hl. reflexivity.
  - simpl in Hlegal. apply andb_true_iff in Hlegal as [_ Hl]. exact Hl.
Qed.

(** C7. Starting from the reset state (value 0, length 0), after any
    sequence of fills and pops in which the buffer never enters the
    exhausted state and every pop of [n] bits finds [length >= n], the
    buffer satisfies [0 <= value < 2^length]. *)
Theorem buffer_invariant (file : list byte) (ops : list buffer_op) :
  legal ops (file, reset_buffer) = true ->
  let b := snd (buffer_run ops (file, reset_buffer)) in
  0 <= buffer b < 2 ^ buffer_length b.
Proof.
  intros Hlegal b. apply (buffer_inv_run ops (file, reset_buffer)); [|exact Hlegal].
  split; simpl; lia.
Qed.

Lemma buffer_invariant_witness :
  let b := snd (buffer_run [Fill; Pop 3; Fill; Pop 8; Pop 5] ([xa7; x41], reset_buffer)) in
  0 <= buffer b < 2 ^ buffer_length b.
Proof. apply (buffer_invariant [xa7; x41] [Fill; Pop 3; Fill; Pop 8; Pop 5]). reflexivity. Defined.

(** ** The encoder, one channel at a time *)




(** ** Exhaustion of the input file *)

Lemma for_range_fixed {S : Type} (body : nat -> S -> S * outcome)
    (range : list nat) (s : S) :
  (forall i, body i s = (s, Finished)) -> for_range body range s = (s, Finished).
Proof.
  intros Hbody. induction range as [|i range IH]; simpl; [reflexivity|].
  rewrite Hbody. exact IH.
Qed.

Lemma hide_channel_exhausted (n : Z) (st : HideState) (rgb : list Z) (i : nat) :
  0 <= n -> input_file st = [] -> hide_buf st = exhausted_buffer ->
  hide_channel n i (st, rgb) = ((st, rgb), Finished).
Proof.
  intros Hn Hfile Hbuf. unfold hide_channel. destruct st as [b f im]. simpl in *.
  subst b f. simpl.
  replace (-1 <? n) with true by (symmetry; apply Z.ltb_lt; lia).
  reflexivity.
Qed.

(** C8. Once the input file is exhausted, every fill attempt sets the
    buffer to value 0 and length -1 (and the file stays exhausted); a
    channel step that attempts a fill then leaves its channel alone, and
    from that state on no channel of the pixel being processed nor any
    other pixel of the image is modified: the loop stops. *)
Theorem exhaustion_propagates (n : Z) (st : HideState) :
  1 <= n <= 8 -> input_file st = [] ->
  (forall b, read_byte_to_buffer (input_file st) b = ([], exhausted_buffer)) /\
  let st' := {| hide_buf := exhausted_buffer; input_file := []; image := image st |} in
  (forall rgb i, buffer_length (hide_buf st) < n ->
     hide_channel n i (st, rgb) = ((st', rgb), Finished)) /\
  (forall rgb i, hide_channel n i (st', rgb) = ((st', rgb), Finished)) /\
  (forall rgb range, for_range (hide_channel n) range (st', rgb) = ((st', rgb), Finished)) /\
  (forall fuel x y, hide_loop n fuel st' x y = (st', Finished)).
Proof.
  intros Hn Hfile. split; [|split; [|split; [|split]]].
  - intros b. rewrite Hfile. reflexivity.
  - intros rgb i Hlt. unfold hide_channel. rewrite Hfile.
    replace (buffer_length (hide_buf st) <? n) with true by (symmetry; apply Z.ltb_lt; lia).
    reflexivity.
  - intros rgb i. apply hide_channel_exhausted; [lia|reflexivity..].
  - intros rgb range. apply for_range_fixed. intros i.
    apply hide_channel_exhausted; [lia|reflexivity..].
  - intros fuel x y. destruct fuel; reflexivity.
Qed.

Lemma exhaustion_propagates_witness :
  let st := {| hide_buf := {| buffer := 1; buffer_length := 1 |};
               input_file := []; image := im4x1 |} in
  (forall b, read_byte_to_buffer (input_file st) b = ([], exhausted_buffer)) /\
  let st' := {| hide_buf := exhausted_buffer; input_file := []; image := image st |} in
  (forall rgb i, buffer_length (hide_buf st) < 2 ->
     hide_channel 2 i (st, rgb) = ((st', rgb), Finished)) /\
  (forall rgb i, hide_channel 2 i (st', rgb) = ((st', rgb), Finished)) /\
  (forall rgb range, for_range (hide_channel 2) range (st', rgb) = ((st', rgb), Finished)) /\
  (forall fuel x y, hide_loop 2 fuel st' x y = (st', Finished)).
Proof.
  apply (exhaustion_propagates 2
           {| hide_buf := {| buffer := 1; buffer_length := 1 |};
              input_file := []; image := im4x1 |}); [lia|reflexivity].
Defined.

(** ** The decoder *)

(** Invariants of a [for] loop: [P] holds of the state all along and [Q] of
    the outcome. *)
Lemma for_range_inv {S : Type} (P : S -> Prop) (Q : outcome -> Prop)
    (body : nat -> S -> S * outcome) (range : list nat) (s : S) :
  P s -> Q Finished ->
  (forall i s, In i range -> P s -> P (fst (body i s)) /\ Q (snd (body i s))) ->
  P (fst (for_range body range s)) /\ Q (snd (for_range body range s)).
Proof.
  intros Hs HQ. revert s Hs.
  induction range as [|i range IH]; intros s Hs Hbody; simpl; [auto|].
  destruct (Hbody i s (or_introl eq_refl) Hs) as [HP HQ'].
  destruct (body i s) as [s' o]. simpl in *.
  destruct o; simpl; auto.
Qed.

Section Decoder.

Variable n : Z.
Variable im : Image.

Lemma recover_pixel_spec (st : RecoverState) :
  let r := recover_pixel n im st in
  output_file (fst r) = output_file st /\ pos (fst r) = pos st /\
  bytes_to_recover (fst r) = bytes_to_recover st /\
  no_struct_error (snd r) /\
  (snd r = Finished ->
   in_image im (pos st) = true /\
   buffer_length (recover_buf (fst r)) = buffer_length (recover_buf st) + 3 * n).
Proof.
  unfold recover_pixel, getpixel.
  destruct (in_image im (pos st)) eqn:Hin.
  2:{ simpl. unfold no_struct_error. repeat split; auto; discriminate. }
  destruct (pixels im !! pixel_index im (pos st)) as [rgb|].
  2:{ simpl. unfold no_struct_error. repeat split; auto; discriminate. }
  destruct (for_range (recover_channel n rgb) (seq 0 3) (recover_buf st)) as [b o] eqn:Hfor.
  simpl. repeat split.
  - pose proof (for_range_inv (fun _ => True) no_struct_error
                  (recover_channel n rgb) (seq 0 3) (recover_buf st)) as H.
    rewrite Hfor in H. apply H; [exact I|left; reflexivity|].
    intros i s _ _. unfold recover_channel, no_struct_error.
    destruct (rgb !! i); simpl; auto.
  - subst o. revert Hfor. simpl. unfold recover_channel.
    destruct (rgb !! 0%nat); simpl; [|discriminate].
    destruct (rgb !! 1%nat); simpl; [|discriminate].
    destruct (rgb !! 2%nat); simpl; [|discriminate].
    intros [= <-]. simpl. lia.
Qed.

Lemma write_loop_spec (fuel : nat) (st : RecoverState) :
  (Z.to_nat (buffer_length (recover_buf st)) <= fuel)%nat ->
  0 <= bytes_to_recover st ->
  let r := write_loop fuel st in
  snd r = Finished /\ pos (fst r) = pos st /\
  exists k, 0 <= k <= bytes_to_recover st /\
    bytes_to_recover (fst r) = bytes_to_recover st - k /\
    Z.of_nat (length (output_file (fst r))) = Z.of_nat (length (output_file st)) + k /\
    buffer_length (recover_buf (fst r)) = buffer_length (recover_buf st) - 8 * k /\
    (bytes_to_recover (fst r) = 0 \/ buffer_length (recover_buf (fst r)) < 8).
Proof.
  revert st. induction fuel as [|fuel IH]; intros st Hfuel Hbtr; simpl.
  - destruct (Z.geb_spec (buffer_length (recover_buf st)) 8) as [Hge|Hlt]; [lia|].
    simpl. repeat split. exists 0. lia.
  - destruct (Z.geb_spec (buffer_length (recover_buf st)) 8) as [Hge|Hlt]; simpl.
    2:{ repeat split. exists 0. lia. }
    destruct (Z.gtb_spec (bytes_to_recover st) 0) as [Hpos|Hzero]; simpl.
    2:{ repeat split. exists 0. lia. }
    unfold struct_pack_1B.
    assert (Hbits : 0 <= buffer (recover_buf st) mod 256 < 256)
      by (apply Z.mod_pos_bound; lia).
    change (Z.shiftl 1 8) with 256.
    replace (0 <=? buffer (recover_buf st) mod 256) with true
      by (symmetry; apply Z.leb_le; lia).
    replace (buffer (recover_buf st) mod 256 <? 256) with true
      by (symmetry; apply Z.ltb_lt; lia).
    simpl.
    destruct (Byte.of_N (Z.to_N (buffer (recover_buf st) mod 256))) as [c|] eqn:Hc.
    2:{ exfalso. apply Byte.of_N_None_iff in Hc. lia. }
    match goal with |- context [write_loop fuel ?s] => specialize (IH s) end.
    simpl in IH. destruct IH as (Hfin & Hpos' & k & Hk & Hbtr' & Hout & Hlen & Hdone); [lia..|].
    repeat split; [exact Hfin|exact Hpos'|].
    exists (k + 1). rewrite length_app in Hout. simpl in Hout. lia.
Qed.

Lemma room_le (xy : Z * Z) : (room im xy <= pixel_count im)%nat.
Proof.
  unfold room, pixel_count, in_image. destruct xy as [x y]. simpl.
  destruct (0 <=? x) eqn:H1, (x <? fst (im_size im)) eqn:H2,
           (0 <=? y) eqn:H3, (y <? snd (im_size im)) eqn:H4; simpl; try lia.
  apply Z.leb_le in H1, H3. apply Z.ltb_lt in H2, H4. nia.
Qed.

Lemma body_advance_in_row (w : Z) (xy : Z * Z) :
  0 <= fst xy < w ->
  body_advance w xy = (if fst xy + 1 <? w then (fst xy + 1, snd xy) else (0, snd xy + 1)) /\
  0 <= fst (body_advance w xy) < w.
Proof.
  intros Hx. unfold body_advance. simpl.
  destruct (Z.geb_spec (fst xy + 1) w), (Z.ltb_spec (fst xy + 1) w); simpl; split;
    try reflexivity; lia.
Qed.

Lemma room_body_advance (xy : Z * Z) :
  in_image im xy = true ->
  (room im (body_advance (fst (im_size im)) xy) < room im xy)%nat.
Proof.
  intros Hin. unfold room. rewrite Hin. destruct xy as [x y].
  unfold in_image in *. simpl in Hin.
  apply andb_true_iff in Hin as [Hin H4]. apply andb_true_iff in Hin as [Hin H3].
  apply andb_true_iff in Hin as [H1 H2].
  apply Z.leb_le in H1, H3. apply Z.ltb_lt in H2, H4.
  unfold body_advance. simpl.
  generalize dependent (fst (im_size im)). generalize dependent (snd (im_size im)).
  intros h H4 w H2.
  assert (Hrow : y * w + w <= w * h) by nia.
  destruct (Z.geb_spec (x + 1) w); simpl;
    match goal with |- context [if ?c then _ else _] => destruct c end; lia.
Qed.

Lemma recover_loop_spec (fuel : nat) (st : RecoverState) :
  (room im (pos st) < fuel)%nat -> 0 <= bytes_to_recover st ->
  let r := recover_loop n fuel im st in
  let written := Z.of_nat (length (output_file (fst r))) in
  let before := Z.of_nat (length (output_file st)) in
  (snd r = Finished /\ written = before + bytes_to_recover st) \/
  (snd r = Raised IndexError /\ before <= written < before + bytes_to_recover st).
Proof.
  revert st. induction fuel as [|fuel IH]; intros st Hfuel Hbtr; [lia|].
  simpl. destruct (Z.gtb_spec (bytes_to_recover st) 0) as [Hpos|Hzero].
  2:{ left. simpl. split; [reflexivity|lia]. }
  pose proof (recover_pixel_spec st) as (Hout & Hp & Hb & Herr & Hfin).
  destruct (recover_pixel n im st) as [st1 o1]. simpl in *.
  destruct Herr as [-> | ->].
  2:{ right. simpl. rewrite Hout. split; [reflexivity|lia]. }
  destruct (Hfin eq_refl) as [Hin Hlen1].
  match goal with
  | |- context [write_loop ?f ?s] =>
      pose proof (write_loop_spec f s ltac:(simpl; lia) ltac:(simpl; lia))
        as (Hw & Hpos2 & k & Hk & Hbtr3 & Hout3 & _);
      destruct (write_loop f s) as [st3 o3]
  end.
  simpl in *. subst o3. rewrite Hout in Hout3.
  specialize (IH st3). simpl in IH.
  destruct IH as [[Hf Hcount] | [Hf Hcount]].
  - rewrite Hpos2, Hp. pose proof (room_body_advance (pos st) Hin). lia.
  - lia.
  - left. split; [exact Hf|]. lia.
  - right. split; [exact Hf|]. lia.
Qed.

Lemma recover_header_spec :
  output_file (fst (recover_header n im)) = [] /\
  no_struct_error (snd (recover_header n im)).
Proof.
  unfold recover_header.
  apply (for_range_inv (fun st => output_file st = []) no_struct_error);
    [reflexivity|left; reflexivity|].
  intros i st _ Hst. unfold header_step.
  pose proof (recover_pixel_spec st) as (Hout & _ & _ & Herr & _).
  destruct (recover_pixel n im st) as [st1 o1]. simpl in *.
  destruct o1; simpl; split; try assumption; try congruence.
Qed.

End Decoder.

(** *** Runs of the decoder that stay inside the image *)

Lemma wf_imageb_correct (im : Image) : wf_imageb im = true -> wf_image im.
Proof.
  unfold wf_imageb, wf_image. intros H.
  apply andb_true_iff in H as [H Hpix]. apply andb_true_iff in H as [H Hlen].
  apply andb_true_iff in H as [Hw Hh].
  apply Z.leb_le in Hw, Hh. apply Nat.eqb_eq in Hlen.
  split_and!; try assumption.
  apply Forall_forall. intros p Hp. apply list_elem_of_In in Hp.
  rewrite forallb_forall in Hpix. specialize (Hpix p Hp).
  unfold wf_pixelb in Hpix. apply andb_true_iff in Hpix as [Hl Hc].
  apply Nat.eqb_eq in Hl. split; [exact Hl|].
  apply Forall_forall. intros c Hin. apply list_elem_of_In in Hin.
  rewrite forallb_forall in Hc. specialize (Hc c Hin).
  apply andb_true_iff in Hc as [H0 H1]. apply Z.leb_le in H0. apply Z.ltb_lt in H1. lia.
Qed.

Lemma getpixel_wf (im : Image) (xy : Z * Z) :
  wf_image im -> in_image im xy = true ->
  exists rgb, getpixel im xy = Some rgb /\ wf_pixel rgb.
Proof.
  intros (Hw & Hh & Hlen & Hpix) Hin. unfold getpixel. rewrite Hin.
  unfold in_image in Hin. destruct xy as [x y]. simpl in Hin.
  apply andb_true_iff in Hin as [Hin H4]. apply andb_true_iff in Hin as [Hin H3].
  apply andb_true_iff in Hin as [H1 H2].
  apply Z.leb_le in H1, H3. apply Z.ltb_lt in H2, H4.
  destruct (lookup_lt_is_Some_2 (pixels im) (pixel_index im (x, y))) as [rgb Hrgb].
  - rewrite Hlen. unfold pixel_index. simpl. nia.
  - exists rgb. split; [exact Hrgb|].
    rewrite Forall_lookup in Hpix. exact (Hpix _ _ Hrgb).
Qed.

Lemma wf_pixel_channels (rgb : list Z) :
  wf_pixel rgb -> exists r g b, rgb = [r; g; b].
Proof.
  intros [Hlen _]. destruct rgb as [|r [|g [|b [|? ?]]]]; try discriminate.
  exists r, g, b. reflexivity.
Qed.

Section DecoderRuns.

Variable n : Z.
Variable im : Image.
Hypothesis Hn : 1 <= n <= 8.
Hypothesis Hwf : wf_image im.

Let w := fst (im_size im).
Let h := snd (im_size im).

Lemma recover_pixel_wf (st : RecoverState) :
  in_image im (pos st) = true -> snd (recover_pixel n im st) = Finished.
Proof.
  intros Hin. unfold recover_pixel.
  destruct (getpixel_wf im (pos st) Hwf Hin) as (rgb & -> & Hrgb).
  destruct (wf_pixel_channels rgb Hrgb) as (r & g & b & ->). reflexivity.
Qed.

(** The header loop along the first row: [m] more pixels from column [x]
    are read without wrapping as long as [x + m <= width]. *)
Lemma header_loop_row (range : list nat) (st : RecoverState) :
  0 < h -> snd (pos st) = 0 -> 0 <= fst (pos st) ->
  fst (pos st) + Z.of_nat (length range) <= w ->
  let r := for_range (header_step n im) range st in
  snd r = Finished /\
  pos (fst r) = (fst (pos st) + Z.of_nat (length range), 0) /\
  buffer_length (recover_buf (fst r)) =
    buffer_length (recover_buf st) + 3 * n * Z.of_nat (length range) /\
  output_file (fst r) = output_file st.
Proof.
  intros Hh. revert st. induction range as [|i range IH]; intros st Hy Hx Hfit; simpl.
  - repeat split; try lia. destruct (pos st) as [x y]. simpl in *. subst y. f_equal. lia.
  - simpl in Hfit.
    assert (Hin : in_image im (pos st) = true).
    { unfold in_image. fold w h. rewrite Hy.
      repeat (apply andb_true_iff; split); try apply Z.leb_le; try apply Z.ltb_lt; lia. }
    assert (Hstep : exists st2,
               header_step n im i st = (st2, Finished) /\
               pos st2 = (fst (pos st) + 1, 0) /\
               buffer_length (recover_buf st2) = buffer_length (recover_buf st) + 3 * n /\
               output_file st2 = output_file st).
    { unfold header_step.
      pose proof (recover_pixel_wf st Hin) as Hfin.
      pose proof (recover_pixel_spec n im st) as (Hout & Hp & _ & _ & Hlen).
      destruct (recover_pixel n im st) as [st1 o1]. simpl in *. subst o1.
      destruct (Hlen eq_refl) as [_ Hlen1].
      eexists. split; [reflexivity|]. simpl. repeat split; try assumption.
      rewrite Hp. unfold header_advance. fold w.
      destruct (Z.gtb_spec (fst (pos st) + 1) w); [lia|]. rewrite Hy. reflexivity. }
    destruct Hstep as (st2 & -> & Hpos2 & Hlen2 & Hout2).
    destruct (IH st2) as (Hf & Hpos' & Hlen' & Hout');
      [rewrite Hpos2; simpl; lia..|].
    repeat split; [exact Hf| | |].
    + rewrite Hpos', Hpos2. simpl. f_equal. lia.
    + rewrite Hlen', Hlen2. lia.
    + rewrite Hout'. exact Hout2.
Qed.

Variable B : Z.   (* the header: the number of bytes to recover *)
Let hb := bits_in_max_filesize n im.

Lemma body_inv_in_image (st : RecoverState) :
  body_inv n im B st -> 0 < bytes_to_recover st -> in_image im (pos st) = true.
Proof.
  intros (Hx & Hy & _ & _ & Hidx) Hpos. specialize (Hidx Hpos).
  unfold in_image. fold w h.
  repeat (apply andb_true_iff; split); try apply Z.leb_le; try apply Z.ltb_lt; try lia.
  destruct (Z_lt_le_dec (snd (pos st)) h); [assumption|]. nia.
Qed.

Lemma recover_loop_finishes (fuel : nat) (st : RecoverState) :
  hb + 8 * B <= 3 * w * h * n ->
  (room im (pos st) < fuel)%nat -> body_inv n im B st ->
  snd (recover_loop n fuel im st) = Finished.
Proof.
  intros Hcap. revert st. induction fuel as [|fuel IH]; intros st Hfuel Hinv; [lia|].
  simpl. destruct (Z.gtb_spec (bytes_to_recover st) 0) as [Hpos|Hzero]; [|reflexivity].
  pose proof (body_inv_in_image st Hinv Hpos) as Hin.
  pose proof (recover_pixel_wf st Hin) as Hfin.
  pose proof (recover_pixel_spec n im st) as (Hout & Hp & Hb & _ & Hlen).
  destruct (recover_pixel n im st) as [st1 o1]. simpl in *. subst o1.
  destruct (Hlen eq_refl) as [_ Hlen1].
  match goal with
  | |- context [write_loop ?f ?s] =>
      pose proof (write_loop_spec f s ltac:(simpl; lia) ltac:(simpl; lia))
        as (Hw & Hpos2 & k & Hk & Hbtr3 & _ & Hlen3 & Hdone);
      destruct (write_loop f s) as [st3 o3]
  end.
  simpl in *. subst o3. apply IH.
  - rewrite Hpos2, Hp. pose proof (room_body_advance im (pos st) Hin). lia.
  - destruct Hinv as (Hx & Hy & Hbtr & Hbl & _).
    pose proof (body_advance_in_row w (pos st) Hx) as [Hadv Hrow].
    unfold body_inv. rewrite Hpos2, Hp. fold w. rewrite Hbtr3, Hb.
    assert (Hidx : snd (body_advance w (pos st)) * w + fst (body_advance w (pos st))
                   = snd (pos st) * w + fst (pos st) + 1).
    { rewrite Hadv. destruct (Z.ltb_spec (fst (pos st) + 1) w); simpl; lia. }
    rewrite Hidx.
    repeat split; try lia.
    + rewrite Hadv. destruct (fst (pos st) + 1 <? w); simpl; lia.
    + intros Hleft. rewrite Hbtr3, Hb in Hdone. nia.
Qed.

End DecoderRuns.

(** ** The encoder on a well-formed image *)

Lemma room_im_size (im im' : Image) (xy : Z * Z) :
  im_size im' = im_size im -> room im' xy = room im xy.
Proof. intros Hsz. unfold room, in_image. rewrite Hsz. reflexivity. Qed.

Lemma putpixel_wf (im : Image) (xy : Z * Z) (rgb : list Z) :
  wf_image im -> wf_pixel rgb -> in_image im xy = true ->
  exists im', putpixel im xy rgb = Some im' /\ wf_image im' /\ im_size im' = im_size im.
Proof.
  intros (Hw & Hh & Hlen & Hpix) Hrgb Hin. unfold putpixel. rewrite Hin.
  eexists. split; [reflexivity|]. split; [|reflexivity].
  unfold wf_image. simpl. rewrite length_insert.
  repeat split; try assumption. apply Forall_insert; assumption.
Qed.

Section Encoder.

Variable n : Z.
Hypothesis Hn : 1 <= n <= 8.

Lemma hide_channel_wf (i : nat) (st : HideState) (rgb : list Z) :
  wf_pixel rgb -> (i < 3)%nat ->
  let r := hide_channel n i (st, rgb) in
  snd r = Finished /\ image (fst (fst r)) = image st /\ wf_pixel (snd (fst r)).
Proof.
  intros Hrgb Hi. unfold hide_channel.
  set (st1 := if buffer_length (hide_buf st) <? n then _ else st).
  assert (Him : image st1 = image st).
  { subst st1. destruct (buffer_length (hide_buf st) <? n); [|reflexivity].
    destruct (read_byte_to_buffer (input_file st) (hide_buf st)). reflexivity. }
  destruct (negb (buffer_length (hide_buf st1) =? -1)); [|simpl; auto].
  destruct Hrgb as [Hlen Hbytes].
  destruct (lookup_lt_is_Some_2 rgb i ltac:(lia)) as [old Hold].
  rewrite Hold. simpl. repeat split; try assumption.
  - rewrite length_insert. exact Hlen.
  - apply Forall_insert; [exact Hbytes|].
    rewrite Forall_lookup in Hbytes. specialize (Hbytes _ _ Hold).
    rewrite shiftl_1 by lia.
    apply (lsb_replace old (buffer (hide_buf st1) mod 2 ^ n) n); [lia|exact Hbytes|].
    apply Z.mod_pos_bound. apply Z.pow_pos_nonneg; lia.
Qed.

Lemma hide_pixel_wf (st : HideState) (x y : Z) :
  wf_image (image st) -> in_image (image st) (x, y) = true ->
  let r := hide_pixel n st x y in
  snd r = Finished /\ wf_image (image (fst r)) /\
  im_size (image (fst r)) = im_size (image st).
Proof.
  intros Hwf Hin. unfold hide_pixel.
  destruct (getpixel_wf _ _ Hwf Hin) as (rgb & -> & Hrgb).
  pose proof (for_range_inv
                (fun s : HideState * list Z => image (fst s) = image st /\ wf_pixel (snd s))
                (fun o => o = Finished)
                (hide_channel n) (seq 0 3) (st, rgb)) as H.
  destruct H as [[Him Hrgb'] Hfin]; [split; [reflexivity|exact Hrgb]|reflexivity| |].
  { intros i [st0 rgb0] Hi [Him0 Hrgb0]. simpl in Him0, Hrgb0.
    apply in_seq in Hi.
    destruct (hide_channel_wf i st0 rgb0 Hrgb0 ltac:(lia)) as (Hf & Him1 & Hrgb1).
    split; [split|]; [congruence|exact Hrgb1|exact Hf]. }
  destruct (for_range (hide_channel n) (seq 0 3) (st, rgb)) as [[st' rgb'] o].
  simpl in *. subst o.
  destruct (putpixel_wf (image st') (x, y) rgb') as (im' & -> & Hwf' & Hsz');
    [rewrite Him; exact Hwf|exact Hrgb'| |].
  { unfold in_image in *. rewrite Him. exact Hin. }
  simpl. split; [reflexivity|]. split; [exact Hwf'|congruence].
Qed.

(** The loop of [hide_data] ends, and without an exception, when it is
    given a unit of fuel for each pixel from its position on. *)
Lemma hide_loop_wf (fuel : nat) (st : HideState) (x y : Z) :
  wf_image (image st) -> 0 <= x < fst (im_size (image st)) -> 0 <= y ->
  (room (image st) (x, y) <= fuel)%nat ->
  let r := hide_loop n fuel st x y in
  snd r = Finished /\ wf_image (image (fst r)) /\
  im_size (image (fst r)) = im_size (image st).
Proof.
  revert st x y. induction fuel as [|fuel IH]; intros st x y Hwf Hx Hy Hfuel.
  - simpl. destruct (negb (buffer_length (hide_buf st) =? -1)); simpl; [|auto].
    destruct (Z.ltb_spec y (snd (im_size (image st)))) as [Hlt|Hge]; [|auto].
    exfalso. unfold room, in_image in Hfuel. simpl in Hfuel.
    replace (0 <=? x) with true in Hfuel by (symmetry; apply Z.leb_le; lia).
    replace (x <? fst (im_size (image st))) with true in Hfuel by (symmetry; apply Z.ltb_lt; lia).
    replace (0 <=? y) with true in Hfuel by (symmetry; apply Z.leb_le; lia).
    replace (y <? snd (im_size (image st))) with true in Hfuel by (symmetry; apply Z.ltb_lt; lia).
    simpl in Hfuel. nia.
  - simpl. destruct (negb (buffer_length (hide_buf st) =? -1)); simpl; [|auto].
    destruct (Z.ltb_spec y (snd (im_size (image st)))) as [Hlt|Hge]; [|auto].
    assert (Hin : in_image (image st) (x, y) = true).
    { unfold in_image. simpl.
      repeat (apply andb_true_iff; split); try apply Z.leb_le; try apply Z.ltb_lt; lia. }
    destruct (hide_pixel_wf st x y Hwf Hin) as (Hf & Hwf' & Hsz).
    destruct (hide_pixel n st x y) as [st' o]. simpl in *. subst o.
    pose proof (room_body_advance (image st) (x, y) Hin) as Hroom.
    unfold body_advance in Hroom. simpl in Hroom. rewrite Hsz.
    destruct (Z.geb_spec (x + 1) (fst (im_size (image st)))) as [Hwrap|Hstay].
    + destruct (IH st' 0 (y + 1)) as (Hf' & Hwf'' & Hsz'');
        [exact Hwf'|rewrite Hsz; lia|lia| |].
      { rewrite (room_im_size (image st) (image st')) by exact Hsz. lia. }
      split; [exact Hf'|]. split; [exact Hwf''|congruence].
    + destruct (IH st' (x + 1) y) as (Hf' & Hwf'' & Hsz'');
        [exact Hwf'|rewrite Hsz; lia|lia| |].
      { rewrite (room_im_size (image st) (image st')) by exact Hsz. lia. }
      split; [exact Hf'|]. split; [exact Hwf''|congruence].
Qed.

(** [hide_data] returns on every well-formed image with a column, whatever
    the input file: it has no capacity check and raises nothing. *)
Lemma hide_data_returns (im : Image) (file : list byte) :
  wf_image im -> 0 < fst (im_size im) ->
  let r := hide_data n im file in
  snd r = Finished /\ wf_image (image (fst r)) /\ im_size (image (fst r)) = im_size im.
Proof.
  intros Hwf Hw. unfold hide_data.
  apply (hide_loop_wf (S (pixel_count im))); simpl; [exact Hwf|lia|lia|].
  pose proof (room_le im (0, 0)). lia.
Qed.

End Encoder.

(** The encoder never changes the size of the image, whatever the image. *)
Lemma hide_channel_image (n : Z) (i : nat) (s : HideState * list Z) :
  image (fst (fst (hide_channel n i s))) = image (fst s).
Proof.
  destruct s as [st rgb]. unfold hide_channel.
  set (st1 := if buffer_length (hide_buf st) <? n then _ else st).
  assert (Him : image st1 = image st).
  { subst st1. destruct (buffer_length (hide_buf st) <? n); [|reflexivity].
    destruct (read_byte_to_buffer (input_file st) (hide_buf st)). reflexivity. }
  destruct (negb (buffer_length (hide_buf st1) =? -1)); [|exact Him].
  destruct (rgb !! i); exact Him.
Qed.

Lemma hide_pixel_im_size (n : Z) (st : HideState) (x y : Z) :
  im_size (image (fst (hide_pixel n st x y))) = im_size (image st).
Proof.
  unfold hide_pixel. destruct (getpixel (image st) (x, y)) as [rgb|]; [|reflexivity].
  pose proof (for_range_inv
                (fun s : HideState * list Z => image (fst s) = image st)
                (fun _ => True) (hide_channel n) (seq 0 3) (st, rgb)) as H.
  destruct H as [Him _]; [reflexivity|exact I| |].
  { intros i s _ Hs. split; [|exact I]. rewrite hide_channel_image. exact Hs. }
  destruct (for_range (hide_channel n) (seq 0 3) (st, rgb)) as [[st' rgb'] o].
  simpl in Him. destruct o; simpl; try (rewrite Him; reflexivity).
  unfold putpixel. destruct (in_image (image st') (x, y)); simpl; rewrite Him; reflexivity.
Qed.

Lemma hide_loop_im_size (n : Z) (fuel : nat) (st : HideState) (x y : Z) :
  im_size (image (fst (hide_loop n fuel st x y))) = im_size (image st).
Proof.
  revert st x y. induction fuel as [|fuel IH]; intros st x y; simpl.
  - destruct (_ && _); reflexivity.
  - destruct (_ && _); [|reflexivity].
    pose proof (hide_pixel_im_size n st x y) as Hsz.
    destruct (hide_pixel n st x y) as [st' o]. simpl in Hsz.
    destruct o; simpl; try exact Hsz.
    destruct (x + 1 >=? fst (im_size (image st'))); rewrite IH; exact Hsz.
Qed.

Lemma hide_data_im_size (n : Z) (im : Image) (file : list byte) :
  im_size (image (fst (hide_data n im file))) = im_size im.
Proof. unfold hide_data. apply hide_loop_im_size. Qed.

(** *** The header phase and the right edge of the image *)

Lemma pixels_used_nonneg (n : Z) (im : Image) :
  1 <= n -> 0 <= pixels_used_for_filesize n im.
Proof.
  intros Hn. unfold pixels_used_for_filesize, ceil_div.
  pose proof (bit_length_nonneg (max_bits_to_hide n im)).
  apply Z.div_pos; unfold bits_in_max_filesize; lia.
Qed.

(** The header loop never wraps within the first [width + 1] pixels: if it
    gets through [range] from column [x] of row 0, it has read the columns
    [x .. x + length range - 1], all of them inside the image, and stands at
    column [x + length range] of row 0. *)
Lemma header_loop_pos (n : Z) (im : Image) (range : list nat) (st : RecoverState) :
  snd (pos st) = 0 -> 0 <= fst (pos st) <= fst (im_size im) ->
  let r := for_range (header_step n im) range st in
  snd r = Finished ->
  fst (pos st) + Z.of_nat (length range) <= fst (im_size im) /\
  pos (fst r) = (fst (pos st) + Z.of_nat (length range), 0).
Proof.
  revert st. induction range as [|i range IH]; intros st Hy Hx; simpl.
  - intros _. split; [lia|]. destruct (pos st) as [x y]. simpl in *. subst y. f_equal. lia.
  - assert (Hstep : snd (header_step n im i st) = Finished ->
                    fst (pos st) < fst (im_size im) /\
                    pos (fst (header_step n im i st)) = (fst (pos st) + 1, 0)).
    { unfold header_step.
      pose proof (recover_pixel_spec n im st) as (_ & Hp & _ & _ & Hfin).
      destruct (recover_pixel n im st) as [st1 o1]. simpl in Hp, Hfin.
      destruct o1; simpl; try discriminate. intros _.
      destruct (Hfin eq_refl) as [Hin _].
      unfold in_image in Hin.
      apply andb_true_iff in Hin as [Hin _]. apply andb_true_iff in Hin as [Hin _].
      apply andb_true_iff in Hin as [_ Hlt]. apply Z.ltb_lt in Hlt.
      split; [exact Hlt|]. rewrite Hp. unfold header_advance.
      destruct (Z.gtb_spec (fst (pos st) + 1) (fst (im_size im))); [lia|].
      rewrite Hy. reflexivity. }
    destruct (header_step n im i st) as [st2 o2]. simpl in Hstep.
    destruct o2; simpl; try discriminate.
    destruct (Hstep eq_refl) as [Hlt Hpos2].
    intros Hr. destruct (IH st2) as [Hfit Hpos']; [rewrite Hpos2; simpl; lia..|exact Hr|].
    rewrite Hpos2 in Hfit, Hpos'. simpl in Hfit, Hpos'.
    split; [lia|]. rewrite Hpos'. f_equal. lia.
Qed.

Lemma recover_loop_outside (n : Z) (fuel : nat) (im : Image) (st : RecoverState) :
  in_image im (pos st) = false ->
  recover_loop n (S fuel) im st =
  if bytes_to_recover st >? 0 then (st, Raised IndexError) else (st, Finished).
Proof.
  intros Hout. simpl. unfold recover_pixel, getpixel. rewrite Hout. reflexivity.
Qed.

Lemma pop_header_nonneg (n : Z) (im : Image) (st : RecoverState) :
  0 <= bytes_to_recover (pop_header n im st).
Proof.
  unfold pop_header. simpl.
  pose proof (bit_length_nonneg (max_bits_to_hide n im)).
  unfold bits_in_max_filesize. rewrite shiftl_1 by lia.
  apply Z.mod_pos_bound. apply Z.pow_pos_nonneg; lia.
Qed.

(** When the header takes a whole row of pixels or more, the decoder
    writes nothing: the header loop leaves [x = width] (its test is
    [x > width]), so either it or the first pixel of the byte-recovery
    phase is read outside the image. *)
Lemma recover_data_header_row (n : Z) (im : Image) :
  1 <= n -> 0 <= fst (im_size im) <= pixels_used_for_filesize n im ->
  let r := recover_data n im in
  output_file (fst r) = [] /\
  (snd r = Finished ->
   bytes_to_recover (pop_header n im (fst (recover_header n im))) = 0) /\
  (snd r = Finished \/ snd r = Raised IndexError).
Proof.
  intros Hn Hw. unfold recover_data.
  pose proof (recover_header_spec n im) as [Hout Herr].
  pose proof (header_loop_pos n im (seq 0 (Z.to_nat (pixels_used_for_filesize n im)))
                {| recover_buf := reset_buffer; output_file := []; pos := (0, 0);
                   bytes_to_recover := 0 |} eq_refl ltac:(simpl; lia)) as Hpos.
  fold (recover_header n im) in Hpos. cbn [pos fst snd] in Hpos.
  destruct (recover_header n im) as [st o]. cbn [fst snd] in *.
  destruct Herr as [-> | ->]; [|split; [exact Hout|split; [discriminate|right; reflexivity]]].
  destruct (Hpos eq_refl) as [Hfit Hp].
  rewrite length_seq, Z2Nat.id, Z.add_0_l in Hfit, Hp by lia.
  assert (Hedge : in_image im (pos (pop_header n im st)) = false).
  { unfold pop_header, in_image. simpl. rewrite Hp. simpl.
    replace (pixels_used_for_filesize n im <? fst (im_size im)) with false
      by (symmetry; apply Z.ltb_ge; lia).
    destruct (0 <=? pixels_used_for_filesize n im); reflexivity. }
  assert (Hout' : output_file (pop_header n im st) = []) by exact Hout.
  pose proof (pop_header_nonneg n im st) as Hnonneg.
  rewrite (recover_loop_outside n _ im _ Hedge).
  destruct (Z.gtb_spec (bytes_to_recover (pop_header n im st)) 0) as [Hpos'|Hzero];
    cbn [fst snd].
  - split; [exact Hout'|split; [discriminate|right; reflexivity]].
  - split; [exact Hout'|split; [intros _; lia|left; reflexivity]].
Qed.

(** ** The decoder: how many bytes are written *)

(** C9 (as amended). The decoder always ends, by returning or by an
    IndexError of a pixel read outside the image.  When it returns it has
    written exactly [bytes_to_recover] bytes, the integer popped as the
    header; when it raises in the byte-recovery phase it has written fewer.
    It returns whenever the image is well formed, the header's pixels end
    before the last column of the first row, and the image has room for the
    header and [bytes_to_recover] bytes. *)
Theorem recover_data_count (n : Z) (im : Image) :
  1 <= n <= 8 ->
  let hdr := recover_header n im in
  let B := bytes_to_recover (pop_header n im (fst hdr)) in
  let r := recover_data n im in
  let written := Z.of_nat (length (output_file (fst r))) in
  (snd r = Finished \/ snd r = Raised IndexError) /\
  (snd r = Finished -> snd hdr = Finished /\ written = B) /\
  (snd r = Raised IndexError -> snd hdr = Finished -> written < B) /\
  (wf_image im -> 0 < snd (im_size im) ->
   pixels_used_for_filesize n im < fst (im_size im) ->
   bits_in_max_filesize n im + 8 * B <= max_bits_to_hide n im ->
   snd r = Finished).
Proof.
  intros Hn hdr B r written. subst hdr B r written. unfold recover_data.
  pose proof (recover_header_spec n im) as [Hout Herr].
  pose proof (pixels_used_nonneg n im ltac:(lia)) as Hp0.
  assert (Hrow : wf_image im -> 0 < snd (im_size im) ->
                 pixels_used_for_filesize n im < fst (im_size im) ->
                 snd (recover_header n im) = Finished /\
                 pos (fst (recover_header n im)) = (pixels_used_for_filesize n im, 0) /\
                 buffer_length (recover_buf (fst (recover_header n im))) =
                   3 * n * pixels_used_for_filesize n im).
  { intros Hwf Hh Hp.
    pose proof (header_loop_row n im Hwf
                  (seq 0 (Z.to_nat (pixels_used_for_filesize n im)))
                  {| recover_buf := reset_buffer; output_file := []; pos := (0, 0);
                     bytes_to_recover := 0 |} Hh eq_refl ltac:(simpl; lia)) as H.
    cbn [pos fst snd recover_buf] in H. rewrite length_seq, Z2Nat.id in H by lia.
    destruct (H ltac:(lia)) as (Hf & Hpos & Hlen & _).
    fold (recover_header n im) in Hf, Hpos, Hlen.
    split; [exact Hf|]. split; [rewrite Hpos; f_equal; lia|]. rewrite Hlen. simpl. lia. }
  destruct (recover_header n im) as [st o]. cbn [fst snd] in *.
  destruct Herr as [-> | ->].
  2:{ split; [right; reflexivity|]. split; [discriminate|]. split; [discriminate|].
      intros Hwf Hh Hp _. destruct (Hrow Hwf Hh Hp) as [Hf _]. discriminate. }
  pose proof (pop_header_nonneg n im st) as HB.
  pose proof (recover_loop_spec n im (S (pixel_count im)) (pop_header n im st)) as Hloop.
  cbn zeta in Hloop.
  assert (Hout' : output_file (pop_header n im st) = []) by exact Hout.
  rewrite Hout' in Hloop. cbn [length] in Hloop.
  specialize (Hloop ltac:(pose proof (room_le im (pos (pop_header n im st))); lia) HB).
  split; [|split; [|split]].
  - destruct Hloop as [[-> _] | [-> _]]; auto.
  - intros Hf. split; [reflexivity|]. destruct Hloop as [[_ H] | [H _]]; [lia|congruence].
  - intros Hr _. destruct Hloop as [[H _] | [_ H]]; [congruence|lia].
  - intros Hwf Hh Hp Hcap. destruct (Hrow Hwf Hh Hp) as (_ & Hpos & Hlen).
    apply (recover_loop_finishes n im Hn Hwf (bytes_to_recover (pop_header n im st))).
    + unfold max_bits_to_hide in Hcap. lia.
    + pose proof (room_le im (pos (pop_header n im st))). lia.
    + assert (Hpos' : pos (pop_header n im st) = pos st) by reflexivity.
      assert (Hlen' : buffer_length (recover_buf (pop_header n im st)) =
                      buffer_length (recover_buf st) - bits_in_max_filesize n im)
        by reflexivity.
      unfold body_inv. rewrite Hpos', Hlen', Hpos, Hlen. cbn [fst snd].
      assert (fst (im_size im) * 1 <= fst (im_size im) * snd (im_size im))
        by (apply Z.mul_le_mono_nonneg_l; lia).
      split_and!; lia.
Qed.

Lemma recover_data_count_witness :
  let im := image (fst (hide_data 2 im4x1 [x41])) in
  snd (recover_data 2 im) = Finished /\
  Z.of_nat (length (output_file (fst (recover_data 2 im)))) =
    bytes_to_recover (pop_header 2 im (fst (recover_header 2 im))).
Proof.
  intros im.
  destruct (recover_data_count 2 im ltac:(lia)) as (_ & Hcount & _ & Hroom).
  assert (Hfin : snd (recover_data 2 im) = Finished).
  { apply Hroom.
    - apply wf_imageb_correct. vm_compute. reflexivity.
    - vm_compute. reflexivity.
    - vm_compute. reflexivity.
    - vm_compute. discriminate. }
  split; [exact Hfin|]. apply Hcount. exact Hfin.
Defined.

(** C9, the claim as stated fails: the encoder has no capacity check, and
    the image it produces from a 3-byte file in a 4x1 image with
    [num_lsb = 2] carries the header 3 but only 19 bits of payload; the
    decoder writes 2 bytes and leaves the image. *)
Lemma recover_data_count_truncated :
  let im := image (fst (hide_data 2 im4x1 [x41; x42; x43])) in
  snd (hide_data 2 im4x1 [x41; x42; x43]) = Finished /\
  snd (recover_header 2 im) = Finished /\
  bytes_to_recover (pop_header 2 im (fst (recover_header 2 im))) = 3 /\
  output_file (fst (recover_data 2 im)) = [x41; x42] /\
  snd (recover_data 2 im) = Raised IndexError /\
  Z.of_nat (length (output_file (fst (recover_data 2 im)))) <>
    bytes_to_recover (pop_header 2 im (fst (recover_header 2 im))).
Proof. vm_compute. split_and!; try reflexivity. discriminate. Qed.

(** ** The row wrap of the two phases of the decoder *)

(** C3, the claim as stated fails: at the last column of a row of width 2
    the header phase does not wrap (it goes on to column 2) and the
    byte-recovery phase does; and on a 1x3 image with [num_lsb = 1], whose
    header takes two pixels, it is the header phase that addresses the
    column [x = width]: its second read, at (1, 0), is outside the image. *)
Lemma decoder_wraps_not_as_claimed :
  header_advance 2 (1, 0) = (2, 0) /\
  header_advance 2 (1, 0) <> spec_header_advance 2 (1, 0) /\
  body_advance 2 (1, 0) = (0, 1) /\
  body_advance 2 (1, 0) <> spec_body_advance 2 (1, 0) /\
  pixels_used_for_filesize 1 (blank 1 3 0) = 2 /\
  pos (fst (recover_header 1 (blank 1 3 0))) = (1, 0) /\
  snd (recover_header 1 (blank 1 3 0)) = Raised IndexError.
Proof. vm_compute. split_and!; try reflexivity; discriminate. Qed.

Lemma write_loop_pos (fuel : nat) (st : RecoverState) :
  pos (fst (write_loop fuel st)) = pos st.
Proof.
  revert st. induction fuel as [|fuel IH]; intros st; simpl.
  - destruct (_ && _); reflexivity.
  - destruct (_ && _); [|reflexivity].
    destruct (struct_pack_1B _); [|reflexivity]. rewrite IH. reflexivity.
Qed.

Lemma recover_loop_in_row (n : Z) (fuel : nat) (im : Image) (st : RecoverState) :
  0 <= fst (pos st) < fst (im_size im) ->
  0 <= fst (pos (fst (recover_loop n fuel im st))) < fst (im_size im).
Proof.
  revert st. induction fuel as [|fuel IH]; intros st Hx; simpl.
  - destruct (bytes_to_recover st >? 0); exact Hx.
  - destruct (bytes_to_recover st >? 0); [|exact Hx].
    pose proof (recover_pixel_spec n im st) as (_ & Hp & _).
    destruct (recover_pixel n im st) as [st1 o1]. simpl in Hp.
    destruct o1; simpl; try (rewrite Hp; exact Hx).
    match goal with
    | |- context [write_loop ?f ?s] =>
        pose proof (write_loop_pos f s) as Hw; destruct (write_loop f s) as [st3 o3]
    end.
    simpl in Hw.
    pose proof (body_advance_in_row (fst (im_size im)) (pos st) Hx) as [_ Hrow].
    rewrite Hp in Hw.
    destruct o3; simpl; try (rewrite Hw; exact Hrow).
    apply IH. rewrite Hw. exact Hrow.
Qed.

(** C3 (as amended). The byte-recovery phase wraps the row with the test
    [x >= width]: from a column inside the image it moves to the next
    column, or from the last column to column 0 of the next row, and never
    to the column [x = width]; so all along the byte-recovery loop (whatever
    the number of iterations done) [x] stays within [0, width) once it is
    there. *)
Theorem body_phase_wraps_at_width (n : Z) (im : Image) (st : RecoverState) :
  0 <= fst (pos st) < fst (im_size im) ->
  let w := fst (im_size im) in
  body_advance w (pos st) =
    (if fst (pos st) + 1 <? w then (fst (pos st) + 1, snd (pos st))
     else (0, snd (pos st) + 1)) /\
  fst (body_advance w (pos st)) <> w /\
  forall fuel, 0 <= fst (pos (fst (recover_loop n fuel im st))) < w.
Proof.
  intros Hx w. subst w.
  destruct (body_advance_in_row (fst (im_size im)) (pos st) Hx) as [Hadv Hrow].
  split; [exact Hadv|]. split; [lia|].
  intros fuel. apply recover_loop_in_row. exact Hx.
Qed.

Lemma body_phase_wraps_at_width_witness :
  let st := {| recover_buf := {| buffer := 1; buffer_length := 1 |};
               output_file := []; pos := (3, 0); bytes_to_recover := 1 |} in
  let im := image (fst (hide_data 2 (blank 4 2 0) [x41])) in
  let w := fst (im_size im) in
  body_advance w (pos st) =
    (if fst (pos st) + 1 <? w then (fst (pos st) + 1, snd (pos st))
     else (0, snd (pos st) + 1)) /\
  fst (body_advance w (pos st)) <> w /\
  forall fuel, 0 <= fst (pos (fst (recover_loop 2 fuel im st))) < w.
Proof.
  intros st im. apply (body_phase_wraps_at_width 2 im st). vm_compute.
  split; [discriminate|reflexivity].
Defined.

(** ** A payload larger than the image *)

(** C4, the claim as stated fails: [hide_data] has no capacity check.  On
    the blank 2x2 image with [num_lsb = 1] and a 2-byte file (4 + 16 bits
    for 12 channels) it raises nothing: it returns after writing pixels,
    with the second byte of the file still unread. *)
Lemma hide_data_over_capacity_returns :
  max_bits_to_hide 1 im2x2 = 12 /\
  bits_in_max_filesize 1 im2x2 + 8 * 2 = 20 /\
  snd (hide_data 1 im2x2 [x41; x42]) = Finished /\
  (forall e, snd (hide_data 1 im2x2 [x41; x42]) <> Raised e) /\
  image (fst (hide_data 1 im2x2 [x41; x42])) <> im2x2 /\
  input_file (fst (hide_data 1 im2x2 [x41; x42])) = [x42].
Proof. vm_compute. split_and!; try reflexivity; try discriminate. Qed.

(** C4 (as amended). For every 2x2 image with [num_lsb = 1], hiding a
    2-byte file raises no error: [hide_data] returns after writing the 4-bit
    header (the value 2, low bit first) and the 8 bits of the first byte
    into the 12 channels; the second byte is never read and is silently
    left out. *)
Theorem hide_data_2x2_two_bytes (c0 c1 c2 c3 c4 c5 c6 c7 c8 c9 c10 c11 : Z) (b1 b2 : byte) :
  hide_data 1
    {| im_size := (2, 2);
       pixels := [[c0; c1; c2]; [c3; c4; c5]; [c6; c7; c8]; [c9; c10; c11]] |}
    [b1; b2] =
  ({| hide_buf := {| buffer := 0; buffer_length := 0 |};
      input_file := [b2];
      image :=
        {| im_size := (2, 2);
           pixels :=
             [[put_lsb 1 c0 0; put_lsb 1 c1 1; put_lsb 1 c2 0];
              [put_lsb 1 c3 0; put_lsb 1 c4 (bit_of b1 0); put_lsb 1 c5 (bit_of b1 1)];
              [put_lsb 1 c6 (bit_of b1 2); put_lsb 1 c7 (bit_of b1 3);
               put_lsb 1 c8 (bit_of b1 4)];
              [put_lsb 1 c9 (bit_of b1 5); put_lsb 1 c10 (bit_of b1 6);
               put_lsb 1 c11 (bit_of b1 7)]] |} |},
   Finished).
Proof. destruct b1; cbv -[Z.land Z.lor]; reflexivity. Qed.

(** ** Hiding, then recovering *)

Lemma pixels_used_im_size (n : Z) (im im' : Image) :
  im_size im' = im_size im ->
  pixels_used_for_filesize n im' = pixels_used_for_filesize n im.
Proof.
  intros Hsz. unfold pixels_used_for_filesize, bits_in_max_filesize, max_bits_to_hide.
  rewrite Hsz. reflexivity.
Qed.

(** C2, evaluated on the code: in a 2x2 image with [num_lsb = 1] (capacity
    12 bits, header 4 bits) hiding one byte does consume the 12 channel
    bits, but recovering does not return the byte.  The header takes two
    pixels, the whole first row; the header loop wraps on [x > width] and
    leaves [x = 2], and the first read of the byte-recovery phase, at (2, 0),
    raises IndexError.  Nothing is written, whatever the image and the
    byte. *)
Theorem recover_2x2_one_byte_raises :
  max_bits_to_hide 1 im2x2 = 12 /\ bits_in_max_filesize 1 im2x2 = 4 /\
  (forall b : byte,
     let r := hide_data 1 im2x2 [b] in
     snd r = Finished /\ input_file (fst r) = [] /\ hide_buf (fst r) = reset_buffer) /\
  (forall b : byte,
     let r := recover_data 1 (image (fst (hide_data 1 im2x2 [b]))) in
     snd r = Raised IndexError /\ pos (fst r) = (2, 0) /\
     bytes_to_recover (fst r) = 1 /\ output_file (fst r) = []) /\
  (forall (ps : list (list Z)) (b : byte),
     let r := recover_data 1 (image (fst (hide_data 1 (mkImage (2, 2) ps) [b]))) in
     output_file (fst r) = [] /\ output_file (fst r) <> [b]).
Proof.
  split; [reflexivity|]. split; [reflexivity|]. split; [|split].
  - intros b. destruct b; vm_compute; split_and!; reflexivity.
  - intros b. destruct b; vm_compute; split_and!; reflexivity.
  - intros ps b r.
    assert (Hout : output_file (fst r) = []); [|split; [exact Hout|rewrite Hout; discriminate]].
    subst r. apply recover_data_header_row; [lia|].
    pose proof (hide_data_im_size 1 (mkImage (2, 2) ps) [b]) as Hsz.
    rewrite (pixels_used_im_size 1 (mkImage (2, 2) ps)) by exact Hsz.
    rewrite Hsz. vm_compute. split; discriminate.
Qed.

(** C1, evaluated on the code: the round trip fails although the payload
    fits.  In a 4x1 image with [num_lsb = 2] the capacity is 24 bits and the
    header 5 bits, so one byte fits (13 bits).  After six channels one bit
    of the byte is left in the buffer; the next fill attempt finds the end
    of the file and resets the buffer, so bit 7 of the byte is never
    written, and recovering reads it from the untouched channel of the
    cover image: 0 over a blank image of zeros, 1 over one of 255. *)
Theorem roundtrip_loses_last_bits :
  bits_in_max_filesize 2 im4x1 + 8 * 1 <= max_bits_to_hide 2 im4x1 /\
  (forall b : byte,
     let h := hide_data 2 im4x1 [b] in
     let r := recover_data 2 (image (fst h)) in
     snd h = Finished /\ snd r = Finished /\
     map int_from_bytes (output_file (fst r)) = [int_from_bytes b mod 128]) /\
  (forall b : byte,
     let h := hide_data 2 (blank 4 1 255) [b] in
     let r := recover_data 2 (image (fst h)) in
     snd h = Finished /\ snd r = Finished /\
     map int_from_bytes (output_file (fst r)) = [int_from_bytes b mod 128 + 128]) /\
  output_file (fst (recover_data 2 (image (fst (hide_data 2 im4x1 [x80]))))) = [x00] /\
  output_file (fst (recover_data 2 (image (fst (hide_data 2 im4x1 [x80]))))) <> [x80].
Proof.
  split; [vm_compute; discriminate|]. split; [|split; [|split]].
  - intros b. destruct b; vm_compute; split_and!; reflexivity.
  - intros b. destruct b; vm_compute; split_and!; reflexivity.
  - vm_compute. reflexivity.
  - vm_compute. discriminate.
Qed.

(** * Beyond the claims: the stream of bits from file to image and back *)

(** ** Arithmetic of the stream *)

Lemma pow2_pos (k : Z) : 0 <= k -> 0 < 2 ^ k.
Proof. intros Hk. apply Z.pow_pos_nonneg; lia. Qed.

Lemma put_lsb_mod (n c v : Z) :
  0 <= n <= 8 -> 0 <= v < 2 ^ n -> put_lsb n c v mod 2 ^ n = v.
Proof.
  intros Hn Hv. unfold put_lsb. rewrite <- Z.land_ones by lia.
  rewrite Z.land_lor_distr_l.
  replace (Z.land (Z.land c (and_mask 0 n)) (Z.ones n)) with 0.
  - rewrite Z.lor_0_l, Z.land_ones by lia. apply Z.mod_small. exact Hv.
  - symmetry. rewrite <- Z.land_assoc.
    replace (Z.land (and_mask 0 n) (Z.ones n)) with 0; [apply Z.land_0_r|].
    symmetry. rewrite and_mask_0 by lia.
    assert (H256 : 256 - 2 ^ n = 2 ^ n * (2 ^ (8 - n) - 1)).
    { rewrite Z.mul_sub_distr_l, <- Z.pow_add_r by lia.
      replace (n + (8 - n)) with 8 by lia. lia. }
    rewrite H256, Z.land_ones by lia.
    rewrite Z.mul_comm. apply Z.mod_mul. pose proof (pow2_pos n). lia.
Qed.

Lemma lsb_stream_range (n : Z) (chs : list Z) :
  0 <= n -> 0 <= lsb_stream n chs < 2 ^ (n * Z.of_nat (length chs)).
Proof.
  intros Hn. induction chs as [|c chs IH]; simpl length.
  - simpl. rewrite Z.mul_0_r. simpl. lia.
  - cbn [lsb_stream]. rewrite Nat2Z.inj_succ, Z.mul_succ_r, Z.pow_add_r by lia.
    pose proof (Z.mod_pos_bound c (2 ^ n) (pow2_pos n Hn)).
    pose proof (pow2_pos n Hn). nia.
Qed.

Lemma lsb_stream_app (n : Z) (l1 l2 : list Z) :
  0 <= n ->
  lsb_stream n (l1 ++ l2) =
  lsb_stream n l1 + 2 ^ (n * Z.of_nat (length l1)) * lsb_stream n l2.
Proof.
  intros Hn. induction l1 as [|c l1 IH]; simpl length.
  - simpl. rewrite Z.mul_0_r. simpl. lia.
  - cbn [lsb_stream app]. rewrite IH.
    rewrite Nat2Z.inj_succ, Z.mul_succ_r, Z.pow_add_r by lia. ring.
Qed.

Lemma le_value_range (file : list byte) :
  0 <= le_value file < 2 ^ (8 * Z.of_nat (length file)).
Proof.
  induction file as [|b file IH]; simpl length.
  - simpl. lia.
  - cbn [le_value]. rewrite Nat2Z.inj_succ, Z.mul_succ_r, Z.pow_add_r by lia.
    pose proof (int_from_bytes_range b). change (2 ^ 8) with 256. lia.
Qed.

Lemma byte_of_Z_int (b : byte) (v : Z) : byte_of_Z (int_from_bytes b + 256 * v) = b.
Proof.
  unfold byte_of_Z. pose proof (int_from_bytes_range b).
  replace (int_from_bytes b + 256 * v) with (int_from_bytes b + v * 256) by lia.
  rewrite Z.mod_add, Z.mod_small by lia.
  unfold int_from_bytes. rewrite N2Z.id, Byte.of_to_N. reflexivity.
Qed.

Lemma le_bytes_le_value (file : list byte) :
  le_bytes (length file) (le_value file) = file.
Proof.
  induction file as [|b file IH]; [reflexivity|].
  cbn [length le_bytes le_value]. rewrite byte_of_Z_int. f_equal.
  pose proof (int_from_bytes_range b).
  replace (int_from_bytes b + 256 * le_value file)
    with (int_from_bytes b + le_value file * 256) by lia.
  rewrite Z.div_add, Z.div_small by lia. exact IH.
Qed.

Lemma le_bytes_mod (k : nat) (v v' : Z) :
  v mod 2 ^ (8 * Z.of_nat k) = v' mod 2 ^ (8 * Z.of_nat k) ->
  le_bytes k v = le_bytes k v'.
Proof.
  revert v v'. induction k as [|k IH]; intros v v' Heq; [reflexivity|].
  cbn [le_bytes].
  rewrite Nat2Z.inj_succ, Z.mul_succ_r, Z.add_comm, Z.pow_add_r in Heq by lia.
  change (2 ^ 8) with 256 in Heq.
  pose proof (pow2_pos (8 * Z.of_nat k) ltac:(lia)) as Hp.
  rewrite !Z.rem_mul_r in Heq by lia.
  pose proof (Z.mod_pos_bound v 256 ltac:(lia)).
  pose proof (Z.mod_pos_bound v' 256 ltac:(lia)).
  pose proof (Z.mod_pos_bound (v / 256) (2 ^ (8 * Z.of_nat k)) Hp).
  pose proof (Z.mod_pos_bound (v' / 256) (2 ^ (8 * Z.of_nat k)) Hp).
  assert (Hlow : v mod 256 = v' mod 256) by nia.
  assert (Hhigh : (v / 256) mod 2 ^ (8 * Z.of_nat k) = (v' / 256) mod 2 ^ (8 * Z.of_nat k)) by nia.
  f_equal.
  - unfold byte_of_Z. rewrite Hlow. reflexivity.
  - apply IH. exact Hhigh.
Qed.

Lemma le_bytes_app (j k : nat) (v : Z) :
  le_bytes (j + k) v = le_bytes j v ++ le_bytes k (v / 2 ^ (8 * Z.of_nat j)).
Proof.
  revert v. induction j as [|j IH]; intros v.
  - simpl. rewrite Z.div_1_r. reflexivity.
  - cbn [Nat.add le_bytes app]. f_equal. rewrite IH. f_equal. f_equal.
    rewrite Nat2Z.inj_succ, Z.mul_succ_r, Z.add_comm, Z.pow_add_r by lia.
    change (2 ^ 8) with 256.
    rewrite Z.div_div by (pose proof (pow2_pos (8 * Z.of_nat j)); lia). reflexivity.
Qed.

Lemma le_bytes_length (k : nat) (v : Z) : length (le_bytes k v) = k.
Proof. revert v. induction k as [|k IH]; intros v; simpl; [|rewrite IH]; reflexivity. Qed.

(** ** The encoder writes the stream *)

Lemma write_stream_short (n W T : Z) (chs : list Z) :
  T < n -> write_stream n W T chs = chs.
Proof.
  intros HT. destruct chs as [|c chs]; [reflexivity|]. simpl.
  destruct (Z.leb_spec n T); [lia|reflexivity].
Qed.

Lemma pop_pending (n : Z) (b : BitBuffer) (file : list byte) :
  0 <= n <= buffer_length b ->
  fst (read_bits_from_buffer n b) = pending b file mod 2 ^ n /\
  pending (snd (read_bits_from_buffer n b)) file = pending b file / 2 ^ n /\
  pending_bits (snd (read_bits_from_buffer n b)) file = pending_bits b file - n.
Proof.
  intros Hn. unfold pending, pending_bits. simpl.
  rewrite shiftl_1, Z.shiftr_div_pow2 by lia.
  pose proof (pow2_pos n ltac:(lia)) as Hp.
  assert (Hsplit : 2 ^ buffer_length b * le_value file =
                   2 ^ (buffer_length b - n) * le_value file * 2 ^ n).
  { replace (buffer_length b) with (buffer_length b - n + n) at 1 by lia.
    rewrite Z.pow_add_r by lia. ring. }
  rewrite Hsplit. rewrite Z.mod_add, Z.div_add by lia. split_and!; [reflexivity|reflexivity|lia].
Qed.

Lemma fill_pending (c : byte) (file : list byte) (b : BitBuffer) :
  0 <= buffer_length b ->
  fst (read_byte_to_buffer (c :: file) b) = file /\
  buffer_length (snd (read_byte_to_buffer (c :: file) b)) = buffer_length b + 8 /\
  pending (snd (read_byte_to_buffer (c :: file) b)) file = pending b (c :: file) /\
  pending_bits (snd (read_byte_to_buffer (c :: file) b)) file = pending_bits b (c :: file).
Proof.
  intros Hlen. unfold pending, pending_bits. simpl fst. simpl snd.
  cbn [buffer buffer_length le_value length].
  rewrite Z.shiftl_mul_pow2, Z.pow_add_r by lia. change (2 ^ 8) with 256.
  split_and!; [reflexivity|reflexivity|ring|lia].
Qed.

Section EncoderStream.

Variable n : Z.
Hypothesis Hn : 1 <= n <= 8.

Lemma hide_channel_stream (i : nat) (st : HideState) (rgb : list Z) (c : Z) :
  hide_good st -> rgb !! i = Some c ->
  exists st' c',
    hide_channel n i (st, rgb) = ((st', <[i := c']> rgb), Finished) /\
    hide_good st' /\ image st' = image st /\
    forall rest,
      c' :: write_stream n (hide_pending st') (hide_pending_bits st') rest =
      write_stream n (hide_pending st) (hide_pending_bits st) (c :: rest).
Proof.
  intros Hgood Hc. destruct st as [b f im].
  unfold hide_good, hide_pending, hide_pending_bits in *. cbn [hide_buf input_file image] in *.
  assert (Hid : <[i := c]> rgb = rgb) by (apply list_insert_id; exact Hc).
  unfold hide_channel. cbn [hide_buf input_file image]. rewrite Hc.
  destruct Hgood as [Hlen | [-> ->]].
  2:{ (* exhausted already *)
      cbn. replace (-1 <? n) with true by (symmetry; apply Z.ltb_lt; lia). cbn.
      exists {| hide_buf := exhausted_buffer; input_file := []; image := im |}, c.
      rewrite Hid. split; [reflexivity|]. split; [right; split; reflexivity|].
      split; [reflexivity|]. intros rest.
      rewrite write_stream_short by (unfold pending_bits; simpl; lia).
      match goal with
      | |- context [n <=? ?t] =>
          replace (n <=? t) with false
            by (symmetry; apply Z.leb_gt; unfold pending_bits; simpl; lia)
      end.
      reflexivity. }
  destruct (Z.ltb_spec (buffer_length b) n) as [Hlt | Hge].
  - destruct f as [|byte f].
    + (* the end of the file: the bits left in the buffer are dropped *)
      cbn. exists {| hide_buf := exhausted_buffer; input_file := []; image := im |}, c.
      rewrite Hid. split; [reflexivity|]. split; [right; split; reflexivity|].
      split; [reflexivity|]. intros rest.
      rewrite write_stream_short by (unfold pending_bits; simpl; lia).
      match goal with
      | |- context [n <=? ?t] =>
          replace (n <=? t) with false
            by (symmetry; apply Z.leb_gt; unfold pending_bits; simpl; lia)
      end.
      reflexivity.
    + destruct (fill_pending byte f b Hlen) as (Hf & Hl & Hp & Hb).
      destruct (read_byte_to_buffer (byte :: f) b) as [f1 b1] eqn:Hfill.
      cbn [fst snd] in Hf, Hl, Hp, Hb. subst f1. cbn [hide_buf input_file image].
      replace (buffer_length b1 =? -1) with false by (symmetry; apply Z.eqb_neq; lia).
      cbn [negb].
      destruct (pop_pending n b1 f ltac:(lia)) as (Hbits & Hp' & Hb').
      destruct (read_bits_from_buffer n b1) as [bits b2] eqn:Hpop.
      cbn [fst snd] in Hbits, Hp', Hb'.
      exists {| hide_buf := b2; input_file := f; image := im |}, (Z.lor (Z.land c (and_mask 0 n)) bits).
      split; [reflexivity|]. cbn [hide_buf input_file image].
      split; [left; apply (f_equal snd) in Hpop; simpl in Hpop; subst b2; simpl; lia|].
      split; [reflexivity|]. intros rest. cbn [write_stream].
      replace (n <=? pending_bits b (byte :: f)) with true
        by (symmetry; apply Z.leb_le; unfold pending_bits in *; lia).
      rewrite Hp', Hb', Hp, Hb, Hbits, Hp. reflexivity.
  - cbn [hide_buf input_file image].
    replace (buffer_length b =? -1) with false by (symmetry; apply Z.eqb_neq; lia).
    cbn [negb].
    destruct (pop_pending n b f ltac:(lia)) as (Hbits & Hp' & Hb').
    destruct (read_bits_from_buffer n b) as [bits b2] eqn:Hpop.
    cbn [fst snd] in Hbits, Hp', Hb'.
    exists {| hide_buf := b2; input_file := f; image := im |}, (Z.lor (Z.land c (and_mask 0 n)) bits).
    split; [reflexivity|]. cbn [hide_buf input_file image].
    split; [left; apply (f_equal snd) in Hpop; simpl in Hpop; subst b2; simpl; lia|].
    split; [reflexivity|]. intros rest. cbn [write_stream].
    replace (n <=? pending_bits b f) with true
      by (symmetry; apply Z.leb_le; unfold pending_bits in *; lia).
    rewrite Hp', Hb', Hbits. reflexivity.
Qed.

End EncoderStream.

Section EncoderLoop.

Variable n : Z.
Hypothesis Hn : 1 <= n <= 8.

Lemma hide_pixel_stream (st : HideState) (x y r g b : Z) :
  hide_good st -> in_image (image st) (x, y) = true ->
  pixels (image st) !! pixel_index (image st) (x, y) = Some [r; g; b] ->
  exists st' rgb',
    hide_pixel n st x y = (st', Finished) /\ hide_good st' /\
    im_size (image st') = im_size (image st) /\
    pixels (image st') = <[pixel_index (image st) (x, y) := rgb']> (pixels (image st)) /\
    forall rest,
      rgb' ++ write_stream n (hide_pending st') (hide_pending_bits st') rest =
      write_stream n (hide_pending st) (hide_pending_bits st) ([r; g; b] ++ rest).
Proof.
  intros Hgood Hin Hpix.
  destruct (hide_channel_stream n Hn 0 st [r; g; b] r Hgood eq_refl)
    as (st1 & r' & E1 & G1 & I1 & S1).
  change (<[0%nat := r']> [r; g; b]) with [r'; g; b] in E1.
  destruct (hide_channel_stream n Hn 1 st1 [r'; g; b] g G1 eq_refl)
    as (st2 & g' & E2 & G2 & I2 & S2).
  change (<[1%nat := g']> [r'; g; b]) with [r'; g'; b] in E2.
  destruct (hide_channel_stream n Hn 2 st2 [r'; g'; b] b G2 eq_refl)
    as (st3 & b' & E3 & G3 & I3 & S3).
  change (<[2%nat := b']> [r'; g'; b]) with [r'; g'; b'] in E3.
  unfold hide_pixel, getpixel. rewrite Hin, Hpix.
  cbn [for_range seq]. rewrite E1, E2, E3.
  assert (Him : image st3 = image st) by congruence.
  unfold putpixel. rewrite Him, Hin.
  eexists _, [r'; g'; b']. split; [reflexivity|].
  cbn [hide_buf input_file image im_size pixels].
  split; [exact G3|]. split; [reflexivity|]. split; [reflexivity|].
  intros rest. unfold hide_pending, hide_pending_bits in *.
  cbn [hide_buf input_file image app].
  rewrite <- S1, <- S2, <- S3. reflexivity.
Qed.

Lemma hide_loop_stream (fuel : nat) (st : HideState) (x y : Z) :
  wf_image (image st) -> hide_good st ->
  0 <= x < fst (im_size (image st)) -> 0 <= y ->
  (room (image st) (x, y) <= fuel)%nat ->
  let i := Z.to_nat (y * fst (im_size (image st)) + x) in
  exists st',
    hide_loop n fuel st x y = (st', Finished) /\
    im_size (image st') = im_size (image st) /\
    channels (image st') =
      concat (take i (pixels (image st))) ++
      write_stream n (hide_pending st) (hide_pending_bits st)
        (concat (drop i (pixels (image st)))).
Proof.
  revert st x y. induction fuel as [|fuel IH]; intros st x y Hwf Hgood Hx Hy Hfuel i.
  all: assert (Hstop : negb (buffer_length (hide_buf st) =? -1) &&
                       (y <? snd (im_size (image st))) = false ->
         channels (image st) =
           concat (take i (pixels (image st))) ++
           write_stream n (hide_pending st) (hide_pending_bits st)
             (concat (drop i (pixels (image st))))).
  1,3: intros Hc; apply andb_false_iff in Hc as [Hc | Hc].
  1,3: apply negb_false_iff, Z.eqb_eq in Hc;
       destruct Hgood as [? | [Hb Hf]]; [lia|];
       unfold hide_pending, hide_pending_bits; rewrite Hb, Hf;
       rewrite write_stream_short by (unfold pending_bits; simpl; lia);
       unfold channels; rewrite <- concat_app, take_drop; reflexivity.
  1,2: apply Z.ltb_ge in Hc; destruct Hwf as (Hw & Hh & Hlen & _);
       assert (Hi : (length (pixels (image st)) <= i)%nat) by (rewrite Hlen; subst i; nia);
       rewrite take_ge, drop_ge by exact Hi; simpl; rewrite app_nil_r; reflexivity.
  - simpl. destruct (negb (buffer_length (hide_buf st) =? -1) &&
                     (y <? snd (im_size (image st)))) eqn:Hcond.
    + exfalso. apply andb_true_iff in Hcond as [_ Hlt]. apply Z.ltb_lt in Hlt.
      unfold room, in_image in Hfuel. simpl in Hfuel.
      replace (0 <=? x) with true in Hfuel by (symmetry; apply Z.leb_le; lia).
      replace (x <? fst (im_size (image st))) with true in Hfuel by (symmetry; apply Z.ltb_lt; lia).
      replace (0 <=? y) with true in Hfuel by (symmetry; apply Z.leb_le; lia).
      replace (y <? snd (im_size (image st))) with true in Hfuel by (symmetry; apply Z.ltb_lt; lia).
      simpl in Hfuel. nia.
    + exists st. split; [reflexivity|]. split; [reflexivity|]. apply Hstop. reflexivity.
  - simpl. destruct (negb (buffer_length (hide_buf st) =? -1) &&
                     (y <? snd (im_size (image st)))) eqn:Hcond.
    2:{ exists st. split; [reflexivity|]. split; [reflexivity|]. apply Hstop. reflexivity. }
    clear Hstop. apply andb_true_iff in Hcond as [_ Hlt]. apply Z.ltb_lt in Hlt.
    assert (Hin : in_image (image st) (x, y) = true).
    { unfold in_image. simpl.
      repeat (apply andb_true_iff; split); try apply Z.leb_le; try apply Z.ltb_lt; lia. }
    destruct (getpixel_wf _ _ Hwf Hin) as (rgb & Hget & Hrgb).
    destruct (wf_pixel_channels rgb Hrgb) as (r & g & b & ->).
    unfold getpixel in Hget. rewrite Hin in Hget.
    destruct (hide_pixel_stream st x y r g b Hgood Hin Hget)
      as (st' & rgb' & Hpx & Hgood' & Hsz & Hpix' & Hstream).
    destruct (hide_pixel_wf n Hn st x y Hwf Hin) as (_ & Hwf' & _).
    rewrite Hpx in Hwf'. simpl in Hwf'. rewrite Hpx.
    pose proof (room_body_advance (image st) (x, y) Hin) as Hroom.
    unfold body_advance in Hroom. simpl in Hroom.
    assert (Hidx : pixel_index (image st) (x, y) = i) by reflexivity.
    rewrite Hidx in Hget, Hpix'.
    assert (Hfinish : forall x' y',
              (if x + 1 >=? fst (im_size (image st)) then (0, y + 1) else (x + 1, y)) = (x', y') ->
              exists st'', hide_loop n fuel st' x' y' = (st'', Finished) /\
                im_size (image st'') = im_size (image st) /\
                channels (image st'') =
                  concat (take i (pixels (image st))) ++
                  write_stream n (hide_pending st) (hide_pending_bits st)
                    (concat (drop i (pixels (image st))))).
    { intros x' y' Hadv.
      assert (Hpos : 0 <= x' < fst (im_size (image st)) /\ 0 <= y' /\
                     Z.to_nat (y' * fst (im_size (image st)) + x') = S i).
      { subst i. destruct (Z.geb_spec (x + 1) (fst (im_size (image st))));
          injection Hadv as <- <-; split_and!; try lia; nia. }
      destruct Hpos as (Hx' & Hy' & Hi').
      destruct (IH st' x' y') as (st'' & Hrun & Hsz'' & Hch); try assumption.
      - rewrite Hsz. exact Hx'.
      - rewrite (room_im_size (image st) (image st')) by exact Hsz.
        rewrite Hadv in Hroom. lia.
      - exists st''. split; [exact Hrun|]. split; [congruence|].
        rewrite Hch, Hsz, Hi', Hpix'.
        apply lookup_lt_Some in Hget as Hlti.
        rewrite (take_S_r _ _ rgb') by (apply list_lookup_insert_eq; exact Hlti).
        rewrite take_insert_ge by lia.
        rewrite drop_insert_lt by lia.
        rewrite (drop_S _ _ _ Hget).
        rewrite concat_app. cbn [concat]. rewrite app_nil_r, <- app_assoc.
        f_equal. apply Hstream. }
    rewrite Hsz.
    destruct (x + 1 >=? fst (im_size (image st))); apply Hfinish; reflexivity.
Qed.

(** The channels [hide_data] leaves in the image: the stream made of the
    header and the file, written [n] bits per channel from the first channel
    on, for as long as [n] bits of it are left. *)
Lemma hide_data_channels (im : Image) (file : list byte) :
  wf_image im -> 0 < fst (im_size im) ->
  let L := Z.of_nat (length file) in
  let hb := bits_in_max_filesize n im in
  snd (hide_data n im file) = Finished /\
  im_size (image (fst (hide_data n im file))) = im_size im /\
  channels (image (fst (hide_data n im file))) =
    write_stream n (L + 2 ^ hb * le_value file) (hb + 8 * L) (channels im).
Proof.
  intros Hwf Hw L hb. unfold hide_data.
  match goal with
  | |- context [hide_loop n ?f ?s 0 0] =>
      destruct (hide_loop_stream f s 0 0) as (st' & Hrun & Hsz & Hch)
  end; try (exact Hwf); cbn [image hide_buf]; try lia.
  - left. simpl. apply bit_length_nonneg.
  - pose proof (room_le im (0, 0)). lia.
  - rewrite Hrun. cbn [fst snd]. split; [reflexivity|]. split; [exact Hsz|].
    rewrite Hch. simpl. reflexivity.
Qed.

End EncoderLoop.

(** ** What the written channels hold *)

Lemma write_stream_length (n W T : Z) (chs : list Z) :
  length (write_stream n W T chs) = length chs.
Proof.
  revert W T. induction chs as [|c chs IH]; intros W T; [reflexivity|].
  simpl. destruct (n <=? T); simpl; [rewrite IH|]; reflexivity.
Qed.

Lemma mod_pow2_cons (n m a0 t v : Z) :
  0 <= n -> 0 <= m -> 0 <= a0 < 2 ^ n -> a0 = v mod 2 ^ n ->
  t mod 2 ^ m = (v / 2 ^ n) mod 2 ^ m ->
  (a0 + 2 ^ n * t) mod 2 ^ (n + m) = v mod 2 ^ (n + m).
Proof.
  intros Hn Hm Ha0 Hlow Hhigh.
  pose proof (pow2_pos n Hn). pose proof (pow2_pos m Hm).
  rewrite !Z.pow_add_r, !Z.rem_mul_r by lia.
  replace (a0 + 2 ^ n * t) with (a0 + t * 2 ^ n) by ring.
  rewrite Z.mod_add, Z.div_add, Z.mod_small, Z.div_small by lia.
  rewrite Z.add_0_l, Hhigh, Hlow. reflexivity.
Qed.

(** The first [k] channels written hold the low [n * k] bits of the stream. *)
Lemma lsb_stream_write_stream (n : Z) (k : nat) (W T : Z) (chs : list Z) :
  1 <= n <= 8 -> n * Z.of_nat k <= T -> (k <= length chs)%nat ->
  lsb_stream n (write_stream n W T chs) mod 2 ^ (n * Z.of_nat k) =
  W mod 2 ^ (n * Z.of_nat k).
Proof.
  intros Hn. revert W T chs. induction k as [|k IH]; intros W T chs HT Hk.
  - rewrite Z.mul_0_r. simpl. rewrite !Z.mod_1_r. reflexivity.
  - destruct chs as [|c chs]; [simpl in Hk; lia|].
    rewrite Nat2Z.inj_succ, Z.mul_succ_r, Z.add_comm in *.
    cbn [write_stream]. replace (n <=? T) with true by (symmetry; apply Z.leb_le; lia).
    cbn [lsb_stream].
    pose proof (Z.mod_pos_bound W (2 ^ n) (pow2_pos n ltac:(lia))) as Hbits.
    rewrite put_lsb_mod by lia.
    apply mod_pow2_cons; try lia.
    apply IH; [lia|simpl in Hk; lia].
Qed.

Lemma div_mod_window (s m a k : Z) :
  0 <= a -> 0 <= k -> a + k <= m ->
  (s mod 2 ^ m / 2 ^ a) mod 2 ^ k = (s / 2 ^ a) mod 2 ^ k.
Proof.
  intros Ha Hk Hm.
  pose proof (pow2_pos a Ha). pose proof (pow2_pos k Hk).
  pose proof (pow2_pos (m - a - k) ltac:(lia)).
  assert (Hsplit : 2 ^ m = 2 ^ (m - a - k) * 2 ^ k * 2 ^ a).
  { rewrite <- !Z.pow_add_r by lia. f_equal. lia. }
  rewrite (Z.mod_eq s (2 ^ m)) by lia. rewrite Hsplit.
  replace (s - 2 ^ (m - a - k) * 2 ^ k * 2 ^ a * (s / (2 ^ (m - a - k) * 2 ^ k * 2 ^ a)))
    with (s + (- (s / (2 ^ (m - a - k) * 2 ^ k * 2 ^ a)) * 2 ^ (m - a - k) * 2 ^ k) * 2 ^ a)
    by ring.
  rewrite Z.div_add by lia.
  replace (s / 2 ^ a + - (s / (2 ^ (m - a - k) * 2 ^ k * 2 ^ a)) * 2 ^ (m - a - k) * 2 ^ k)
    with (s / 2 ^ a + (- (s / (2 ^ (m - a - k) * 2 ^ k * 2 ^ a)) * 2 ^ (m - a - k)) * 2 ^ k)
    by ring.
  rewrite Z.mod_add by lia. reflexivity.
Qed.

(** ** The decoder reads the stream *)

Lemma struct_pack_byte (v : Z) : struct_pack_1B (v mod 256) = Some (byte_of_Z v).
Proof.
  unfold struct_pack_1B, byte_of_Z.
  pose proof (Z.mod_pos_bound v 256 ltac:(lia)) as Hr.
  replace (0 <=? v mod 256) with true by (symmetry; apply Z.leb_le; lia).
  replace (v mod 256 <? 256) with true by (symmetry; apply Z.ltb_lt; lia).
  cbn [andb].
  destruct (Byte.of_N (Z.to_N (v mod 256))) as [c|] eqn:Hc; [reflexivity|].
  exfalso. apply Byte.of_N_None_iff in Hc. lia.
Qed.

(** The inner loop writes the low bytes of the buffer, lowest first. *)
Lemma write_loop_value (fuel : nat) (st : RecoverState) :
  (Z.to_nat (buffer_length (recover_buf st)) <= fuel)%nat ->
  0 <= bytes_to_recover st -> 0 <= buffer_length (recover_buf st) ->
  exists (k : nat) (b : BitBuffer),
    write_loop fuel st =
      ({| recover_buf := b;
          output_file := output_file st ++ le_bytes k (buffer (recover_buf st));
          pos := pos st;
          bytes_to_recover := bytes_to_recover st - Z.of_nat k |}, Finished) /\
    buffer b = buffer (recover_buf st) / 2 ^ (8 * Z.of_nat k) /\
    buffer_length b = buffer_length (recover_buf st) - 8 * Z.of_nat k /\
    8 * Z.of_nat k <= buffer_length (recover_buf st) /\
    Z.of_nat k <= bytes_to_recover st /\
    (bytes_to_recover st - Z.of_nat k = 0 \/
     buffer_length (recover_buf st) - 8 * Z.of_nat k < 8).
Proof.
  revert st. induction fuel as [|fuel IH]; intros st Hfuel Hbtr Hlen.
  all: assert (Hstop : (buffer_length (recover_buf st) >=? 8) && (bytes_to_recover st >? 0) = false ->
         exists (k : nat) (b : BitBuffer),
           (st, Finished) =
             ({| recover_buf := b;
                 output_file := output_file st ++ le_bytes k (buffer (recover_buf st));
                 pos := pos st;
                 bytes_to_recover := bytes_to_recover st - Z.of_nat k |}, Finished) /\
           buffer b = buffer (recover_buf st) / 2 ^ (8 * Z.of_nat k) /\
           buffer_length b = buffer_length (recover_buf st) - 8 * Z.of_nat k /\
           8 * Z.of_nat k <= buffer_length (recover_buf st) /\
           Z.of_nat k <= bytes_to_recover st /\
           (bytes_to_recover st - Z.of_nat k = 0 \/
            buffer_length (recover_buf st) - 8 * Z.of_nat k < 8)).
  1,3: intros Hc; exists 0%nat, (recover_buf st); destruct st as [b out p btr];
       cbn [recover_buf output_file pos bytes_to_recover le_bytes] in *;
       rewrite app_nil_r, Z.sub_0_r; change (8 * Z.of_nat 0) with 0;
       rewrite Z.div_1_r;
       apply andb_false_iff in Hc as [Hc | Hc];
       [rewrite Z.geb_leb in Hc; apply Z.leb_gt in Hc | rewrite Z.gtb_ltb in Hc; apply Z.ltb_ge in Hc];
       split_and!; try reflexivity; lia.
  - simpl. destruct ((buffer_length (recover_buf st) >=? 8) && (bytes_to_recover st >? 0)) eqn:Hc.
    + apply andb_true_iff in Hc as [Hc _]. apply Z.geb_le in Hc. lia.
    + apply Hstop. reflexivity.
  - simpl. destruct ((buffer_length (recover_buf st) >=? 8) && (bytes_to_recover st >? 0)) eqn:Hc.
    2:{ apply Hstop. reflexivity. }
    clear Hstop. apply andb_true_iff in Hc as [Hc8 Hcb].
    apply Z.geb_le in Hc8. apply Z.gtb_lt in Hcb.
    change (Z.shiftl 1 8) with 256. rewrite struct_pack_byte.
    match goal with |- context [write_loop fuel ?s] => destruct (IH s) as (k & b & Hrun & Hb & Hl & H8 & Hk & Hdone) end;
      cbn [recover_buf output_file pos bytes_to_recover buffer buffer_length] in *; try lia.
    exists (S k), b. rewrite Hrun. cbn [le_bytes].
    rewrite <- app_assoc. cbn [app].
    rewrite Z.shiftr_div_pow2 in * by lia. change (2 ^ 8) with 256 in *.
    rewrite Nat2Z.inj_succ.
    split_and!; try lia.
    + do 2 f_equal. lia.
    + rewrite Hb, Z.div_div by (pose proof (pow2_pos (8 * Z.of_nat k)); lia).
      f_equal. replace (8 * Z.succ (Z.of_nat k)) with (8 + 8 * Z.of_nat k) by lia.
      rewrite Z.pow_add_r by lia. reflexivity.
Qed.

Lemma ceil_div_ge (a b : Z) : 0 < b -> a <= b * ceil_div a b.
Proof.
  intros Hb. unfold ceil_div.
  pose proof (Z.mod_pos_bound (a + b - 1) b Hb).
  pose proof (Z.div_mod (a + b - 1) b ltac:(lia)). lia.
Qed.

Section DecoderStream.

Variable n : Z.
Variable im : Image.
Hypothesis Hn : 1 <= n <= 8.
Hypothesis Hwf : wf_image im.

Let Sall := lsb_stream n (channels im).

(** The stream of the first [i] pixels. *)
Let Spre (i : nat) := lsb_stream n (concat (take i (pixels im))).

Lemma length_concat_take (i : nat) :
  (i <= length (pixels im))%nat -> length (concat (take i (pixels im))) = (3 * i)%nat.
Proof.
  destruct Hwf as (_ & _ & _ & Hpix). revert Hpix. generalize (pixels im) as ps.
  induction i as [|i IH]; intros ps Hpix Hi; [reflexivity|].
  destruct ps as [|p ps]; [simpl in Hi; lia|].
  apply Forall_cons in Hpix as [[Hp _] Hps].
  cbn [take concat]. rewrite length_app, Hp, IH; [lia|exact Hps|simpl in Hi; lia].
Qed.

Lemma Spre_S (i : nat) (rgb : list Z) :
  pixels im !! i = Some rgb ->
  Spre (S i) = Spre i + 2 ^ (3 * n * Z.of_nat i) * lsb_stream n rgb.
Proof.
  intros Hi. unfold Spre. rewrite (take_S_r _ _ _ Hi), concat_app.
  cbn [concat]. rewrite app_nil_r, lsb_stream_app by lia.
  rewrite length_concat_take by (apply lookup_lt_Some in Hi; lia).
  do 3 f_equal. lia.
Qed.

Lemma Spre_mod (i : nat) :
  (i <= length (pixels im))%nat -> Spre i = Sall mod 2 ^ (3 * n * Z.of_nat i).
Proof.
  intros Hi. unfold Sall, Spre, channels.
  rewrite <- (take_drop i (pixels im)) at 2.
  rewrite concat_app, lsb_stream_app, length_concat_take by (exact Hi || lia).
  pose proof (lsb_stream_range n (concat (take i (pixels im))) ltac:(lia)) as Hr.
  rewrite length_concat_take in Hr by exact Hi.
  replace (n * Z.of_nat (3 * i)) with (3 * n * Z.of_nat i) in * by lia.
  rewrite (Z.mul_comm (2 ^ (3 * n * Z.of_nat i))).
  rewrite Z.mod_add by (pose proof (pow2_pos (3 * n * Z.of_nat i)); lia).
  symmetry. apply Z.mod_small. exact Hr.
Qed.

(** Reading a pixel: the buffer holds the stream of the pixels read so far,
    less the [a] bits already popped. *)
Lemma recover_pixel_stream (st : RecoverState) (a : Z) :
  in_image im (pos st) = true ->
  let i := pixel_index im (pos st) in
  0 <= a <= 3 * n * Z.of_nat i ->
  buffer (recover_buf st) = Spre i / 2 ^ a ->
  buffer_length (recover_buf st) = 3 * n * Z.of_nat i - a ->
  exists b,
    recover_pixel n im st =
      ({| recover_buf := b; output_file := output_file st; pos := pos st;
          bytes_to_recover := bytes_to_recover st |}, Finished) /\
    buffer b = Spre (S i) / 2 ^ a /\
    buffer_length b = 3 * n * Z.of_nat (S i) - a.
Proof.
  intros Hin i Ha Hbuf Hlen.
  destruct (getpixel_wf im (pos st) Hwf Hin) as (rgb & Hget & Hrgb).
  destruct (wf_pixel_channels rgb Hrgb) as (r & g & b & ->).
  unfold recover_pixel. rewrite Hget.
  unfold getpixel in Hget. rewrite Hin in Hget. fold i in Hget.
  cbn [for_range seq recover_channel lookup list_lookup buffer buffer_length].
  eexists. split; [reflexivity|]. cbn [buffer buffer_length].
  rewrite (Spre_S i _ Hget). cbn [lsb_stream].
  rewrite !shiftl_1, !Z.shiftl_mul_pow2, Hbuf, Hlen by lia.
  pose proof (pow2_pos a ltac:(lia)) as Hpa. pose proof (pow2_pos n ltac:(lia)) as Hpn.
  split; [|lia].
  assert (Hsplit : 2 ^ (3 * n * Z.of_nat i) = 2 ^ (3 * n * Z.of_nat i - a) * 2 ^ a).
  { rewrite <- Z.pow_add_r by lia. f_equal. lia. }
  rewrite Hsplit.
  replace (Spre i + 2 ^ (3 * n * Z.of_nat i - a) * 2 ^ a *
             (r mod 2 ^ n + 2 ^ n * (g mod 2 ^ n + 2 ^ n * (b mod 2 ^ n + 2 ^ n * 0))))
    with (Spre i + (2 ^ (3 * n * Z.of_nat i - a) *
             (r mod 2 ^ n + 2 ^ n * (g mod 2 ^ n + 2 ^ n * (b mod 2 ^ n)))) * 2 ^ a) by ring.
  rewrite Z.div_add by lia.
  replace (3 * n * Z.of_nat i - a + n + n) with (3 * n * Z.of_nat i - a + (n + n)) by lia.
  replace (3 * n * Z.of_nat i - a + n) with ((3 * n * Z.of_nat i - a) + n) by lia.
  rewrite !Z.pow_add_r by lia. ring.
Qed.

(** The header loop along the first row, with the value of the buffer. *)
Lemma header_loop_stream (range : list nat) (st : RecoverState) :
  0 < snd (im_size im) -> snd (pos st) = 0 -> 0 <= fst (pos st) ->
  fst (pos st) + Z.of_nat (length range) <= fst (im_size im) ->
  buffer (recover_buf st) = Spre (Z.to_nat (fst (pos st))) ->
  buffer_length (recover_buf st) = 3 * n * fst (pos st) ->
  let r := for_range (header_step n im) range st in
  snd r = Finished /\
  pos (fst r) = (fst (pos st) + Z.of_nat (length range), 0) /\
  buffer (recover_buf (fst r)) = Spre (Z.to_nat (fst (pos st)) + length range) /\
  buffer_length (recover_buf (fst r)) = 3 * n * (fst (pos st) + Z.of_nat (length range)) /\
  output_file (fst r) = output_file st /\
  bytes_to_recover (fst r) = bytes_to_recover st.
Proof.
  intros Hh. revert st. induction range as [|i range IH]; intros st Hy Hx Hfit Hbuf Hlen.
  - cbn [for_range fst snd length]. rewrite Nat.add_0_r, Z.add_0_r.
    split_and!; try reflexivity; try assumption.
    destruct (pos st) as [x y]. simpl in *. subst y. reflexivity.
  - cbn [length] in *. rewrite Nat2Z.inj_succ in *.
    assert (Hin : in_image im (pos st) = true).
    { unfold in_image. rewrite Hy.
      repeat (apply andb_true_iff; split); try apply Z.leb_le; try apply Z.ltb_lt; lia. }
    assert (Hidx : pixel_index im (pos st) = Z.to_nat (fst (pos st))).
    { unfold pixel_index. rewrite Hy. f_equal; lia. }
    destruct (recover_pixel_stream st 0 Hin) as (b & Hpx & Hb & Hl).
    { lia. }
    { rewrite Hidx, Hbuf. fold (Spre (Z.to_nat (fst (pos st)))). rewrite Z.div_1_r. reflexivity. }
    { rewrite Hidx, Z2Nat.id by lia. lia. }
    rewrite Hidx in Hb, Hl. fold (Spre (S (Z.to_nat (fst (pos st))))) in Hb.
    rewrite Z.div_1_r in Hb.
    assert (Hadv : header_advance (fst (im_size im)) (pos st) = (fst (pos st) + 1, 0)).
    { unfold header_advance.
      destruct (Z.gtb_spec (fst (pos st) + 1) (fst (im_size im))); [lia|].
      rewrite Hy. reflexivity. }
    assert (Hstep : header_step n im i st =
                    ({| recover_buf := b; output_file := output_file st;
                        pos := (fst (pos st) + 1, 0);
                        bytes_to_recover := bytes_to_recover st |}, Finished)).
    { unfold header_step. rewrite Hpx. unfold set_pos.
      cbn [pos recover_buf output_file bytes_to_recover]. rewrite Hadv. reflexivity. }
    cbn [for_range]. rewrite Hstep.
    match goal with |- context [for_range _ range ?s] => specialize (IH s) end.
    cbn [pos recover_buf output_file bytes_to_recover fst snd] in IH.
    destruct IH as (Hf & Hp & Hb' & Hl' & Ho & Hbt).
    { reflexivity. }
    { lia. }
    { lia. }
    { rewrite Hb. f_equal. lia. }
    { rewrite Hl, Nat2Z.inj_succ, Z2Nat.id by lia. lia. }
    split_and!; try assumption.
    + rewrite Hp. f_equal. lia.
    + rewrite Hb'. f_equal. lia.
    + rewrite Hl'. lia.
Qed.

Section Body.

Variable B : Z.   (* the header *)
Let hb := bits_in_max_filesize n im.

Lemma recover_loop_stream (fuel : nat) (st : RecoverState) :
  hb + 8 * B <= 3 * fst (im_size im) * snd (im_size im) * n ->
  (room im (pos st) < fuel)%nat -> recover_inv n im B st ->
  exists st',
    recover_loop n fuel im st = (st', Finished) /\
    output_file st' = le_bytes (Z.to_nat B) (Sall / 2 ^ hb).
Proof.
  intros Hcap. revert st. induction fuel as [|fuel IH]; intros st Hfuel Hinv; [lia|].
  destruct Hinv as (Hbody & Hlen0 & Hbuf & Hout).
  pose proof Hbody as (Hx & Hy & Hbtr & Hbl & Hidx).
  cbn zeta in Hbl, Hidx, Hbuf, Hout. fold hb in Hbl, Hbuf, Hout. fold Sall in Hout.
  simpl. destruct (Z.gtb_spec (bytes_to_recover st) 0) as [Hpos|Hzero].
  2:{ exists st. split; [reflexivity|]. rewrite Hout. do 2 f_equal. lia. }
  specialize (Hidx Hpos).
  set (idx := snd (pos st) * fst (im_size im) + fst (pos st)) in *.
  set (j := B - bytes_to_recover st) in *.
  assert (Hin : in_image im (pos st) = true).
  { unfold in_image.
    repeat (apply andb_true_iff; split); try apply Z.leb_le; try apply Z.ltb_lt; try lia.
    destruct (Z_lt_le_dec (snd (pos st)) (snd (im_size im))); [assumption|]. subst idx. nia. }
  assert (Hidx0 : 0 <= idx) by (subst idx; nia).
  assert (Hpi : pixel_index im (pos st) = Z.to_nat idx) by reflexivity.
  destruct (recover_pixel_stream st (hb + 8 * j) Hin) as (b1 & Hpx & Hb1 & Hl1).
  { rewrite Hpi, Z2Nat.id by lia. pose proof (bit_length_nonneg (max_bits_to_hide n im)).
    subst hb j. unfold bits_in_max_filesize in *. lia. }
  { rewrite Hpi. exact Hbuf. }
  { rewrite Hpi, Z2Nat.id by lia. lia. }
  rewrite Hpi in Hb1, Hl1. rewrite Nat2Z.inj_succ, Z2Nat.id in Hl1 by lia.
  rewrite Hpx. unfold set_pos. cbn [pos recover_buf output_file bytes_to_recover].
  pose proof (body_advance_in_row (fst (im_size im)) (pos st) Hx) as [Hadv Hrow].
  assert (Hidx' : snd (body_advance (fst (im_size im)) (pos st)) * fst (im_size im) +
                  fst (body_advance (fst (im_size im)) (pos st)) = idx + 1).
  { rewrite Hadv. subst idx.
    destruct (Z.ltb_spec (fst (pos st) + 1) (fst (im_size im))); simpl; lia. }
  assert (Hy' : 0 <= snd (body_advance (fst (im_size im)) (pos st))).
  { rewrite Hadv. destruct (fst (pos st) + 1 <? fst (im_size im)); simpl; lia. }
  match goal with
  | |- context [write_loop ?f ?s] =>
      destruct (write_loop_value f s) as (k & b3 & Hw & Hb3 & Hl3 & H8 & Hk & Hdone)
  end; cbn [pos recover_buf output_file bytes_to_recover] in *; try lia.
  rewrite Hw.
  assert (Hlen_pix : (S (Z.to_nat idx) <= length (pixels im))%nat).
  { destruct Hwf as (_ & _ & Hlen & _). rewrite Hlen. lia. }
  apply IH.
  - cbn [pos]. pose proof (room_body_advance im (pos st) Hin). lia.
  - unfold recover_inv, body_inv.
    cbn [pos recover_buf output_file bytes_to_recover]. fold hb Sall.
    rewrite Hidx'.
    replace (B - (bytes_to_recover st - Z.of_nat k)) with (j + Z.of_nat k) by (subst j; lia).
    split_and!; try lia.
    + intros Hleft. destruct Hdone as [Hd | Hd]; [lia|]. subst j. nia.
    + rewrite Hb3, Hb1, Z.div_div
        by (try apply pow2_pos; pose proof (bit_length_nonneg (max_bits_to_hide n im));
            subst hb j; unfold bits_in_max_filesize in *; lia).
      rewrite <- Z.pow_add_r
        by (pose proof (bit_length_nonneg (max_bits_to_hide n im));
            subst hb j; unfold bits_in_max_filesize in *; lia).
      replace (Z.to_nat (idx + 1)) with (S (Z.to_nat idx)) by lia.
      do 2 f_equal. lia.
    + replace (Z.to_nat (j + Z.of_nat k)) with (Z.to_nat j + k)%nat by (subst j; lia).
      rewrite le_bytes_app, Hout. f_equal.
      apply le_bytes_mod.
      pose proof (bit_length_nonneg (max_bits_to_hide n im)) as Hhb0.
      fold (bits_in_max_filesize n im) in Hhb0. fold hb in Hhb0.
      rewrite Z.div_div, <- Z.pow_add_r by (try apply pow2_pos; subst j; lia).
      rewrite Z2Nat.id by (subst j; lia).
      rewrite Hb1. fold (Spre (S (Z.to_nat idx))). rewrite (Spre_mod _ Hlen_pix).
      apply div_mod_window; try (subst j; lia).
Qed.

End Body.

(** The whole decoder on a well-formed image whose header ends before the
    last column of the first row: the header is the low [hb] bits of the
    stream of the image, and when the image has room for that many bytes
    the output is the bytes that follow the header in the stream. *)
Lemma recover_data_stream :
  0 < snd (im_size im) ->
  pixels_used_for_filesize n im < fst (im_size im) ->
  let hb := bits_in_max_filesize n im in
  let B := Sall mod 2 ^ hb in
  hb + 8 * B <= max_bits_to_hide n im ->
  exists st,
    recover_data n im = (st, Finished) /\
    bytes_to_recover (pop_header n im (fst (recover_header n im))) = B /\
    output_file st = le_bytes (Z.to_nat B) (Sall / 2 ^ hb).
Proof.
  intros Hh Hp hb B Hcap.
  pose proof (pixels_used_nonneg n im ltac:(lia)) as Hp0.
  pose proof (bit_length_nonneg (max_bits_to_hide n im)) as Hhb0.
  fold (bits_in_max_filesize n im) in Hhb0. fold hb in Hhb0.
  pose proof (header_loop_stream
                (seq 0 (Z.to_nat (pixels_used_for_filesize n im)))
                {| recover_buf := reset_buffer; output_file := []; pos := (0, 0);
                   bytes_to_recover := 0 |} Hh eq_refl ltac:(simpl; lia)) as Hhdr.
  cbn [pos recover_buf buffer buffer_length reset_buffer output_file bytes_to_recover fst snd] in Hhdr.
  rewrite length_seq, Z2Nat.id in Hhdr by lia.
  destruct Hhdr as (Hf & Hpos & Hbuf & Hlen & Hout & _); [lia|reflexivity|lia|].
  fold (recover_header n im) in Hf, Hpos, Hbuf, Hlen, Hout.
  unfold recover_data.
  destruct (recover_header n im) as [st0 o0]. cbn [fst snd] in *. subst o0.
  assert (Hpl : (Z.to_nat (pixels_used_for_filesize n im) <= length (pixels im))%nat).
  { destruct Hwf as (_ & _ & Hl & _). rewrite Hl. nia. }
  assert (H3np : hb <= 3 * n * pixels_used_for_filesize n im).
  { pose proof (ceil_div_ge hb (3 * n) ltac:(lia)). unfold pixels_used_for_filesize.
    fold hb. lia. }
  change (Z.to_nat 0 + Z.to_nat (pixels_used_for_filesize n im))%nat
    with (Z.to_nat (pixels_used_for_filesize n im)) in Hbuf.
  rewrite (Spre_mod _ Hpl), Z2Nat.id in Hbuf by lia.
  assert (HB : bytes_to_recover (pop_header n im st0) = B).
  { unfold pop_header. cbn [read_bits_from_buffer bytes_to_recover]. fold hb.
    rewrite shiftl_1, Hbuf by lia.
    pose proof (div_mod_window Sall (3 * n * pixels_used_for_filesize n im) 0 hb
                  ltac:(lia) Hhb0 ltac:(lia)) as Hwin.
    rewrite !Z.div_1_r in Hwin. exact Hwin. }
  destruct (recover_loop_stream B (S (pixel_count im)) (pop_header n im st0))
    as (st' & Hrun & Hout').
  - unfold max_bits_to_hide in Hcap. fold hb. lia.
  - pose proof (room_le im (pos (pop_header n im st0))). lia.
  - unfold recover_inv, body_inv. rewrite HB.
    assert (Hpos' : pos (pop_header n im st0) = pos st0) by reflexivity.
    assert (Hout0 : output_file (pop_header n im st0) = output_file st0) by reflexivity.
    assert (Hlen' : buffer_length (recover_buf (pop_header n im st0)) =
                    buffer_length (recover_buf st0) - hb) by reflexivity.
    assert (Hbuf' : buffer (recover_buf (pop_header n im st0)) =
                    buffer (recover_buf st0) / 2 ^ hb).
    { unfold pop_header. cbn [read_bits_from_buffer recover_buf buffer].
      fold hb. apply Z.shiftr_div_pow2. lia. }
    rewrite Hpos', Hout0, Hlen', Hbuf', Hpos, Hlen, Hout, Hbuf. cbn [fst snd]. fold hb.
    replace (B - B) with 0 by lia. rewrite Z.mul_0_r, Z.add_0_r.
    assert (fst (im_size im) * 1 <= fst (im_size im) * snd (im_size im))
      by (apply Z.mul_le_mono_nonneg_l; lia).
    pose proof (Z.mod_pos_bound Sall (2 ^ hb) (pow2_pos hb Hhb0)).
    split_and!; try (subst B; lia).
    + change (0 * fst (im_size im) + (0 + pixels_used_for_filesize n im))
        with (pixels_used_for_filesize n im).
      fold (Spre (Z.to_nat (pixels_used_for_filesize n im))).
      rewrite (Spre_mod _ Hpl), Z2Nat.id by lia. reflexivity.
    + reflexivity.
  - exists st'. split; [exact Hrun|]. split; [exact HB|exact Hout'].
Qed.

End DecoderStream.

(** ** More on the written channels *)

Lemma write_stream_frame (n W T : Z) (chs : list Z) :
  1 <= n <= 8 -> Forall (fun c => 0 <= c < 256) chs ->
  Forall2 (fun c c' => Z.shiftr c' n = Z.shiftr c n /\ 0 <= c' < 256)
    chs (write_stream n W T chs).
Proof.
  intros Hn Hbytes. revert W T. induction Hbytes as [|c chs Hc Hchs IH]; intros W T.
  - constructor.
  - cbn [write_stream]. destruct (n <=? T).
    + constructor; [|apply IH].
      pose proof (Z.mod_pos_bound W (2 ^ n) (pow2_pos n ltac:(lia))) as Hbits.
      destruct (lsb_replace c (W mod 2 ^ n) n ltac:(lia) Hc Hbits) as (Hhigh & Hbyte & _).
      split; assumption.
    + constructor; [split; [reflexivity|exact Hc]|].
      clear IH. induction Hchs; constructor; auto.
Qed.

Lemma write_stream_drop (n W T : Z) (chs : list Z) :
  1 <= n -> drop (Z.to_nat (T / n)) (write_stream n W T chs) = drop (Z.to_nat (T / n)) chs.
Proof.
  intros Hn. revert W T. induction chs as [|c chs IH]; intros W T; [reflexivity|].
  cbn [write_stream]. destruct (Z.leb_spec n T) as [Hle|Hlt]; [|reflexivity].
  assert (Hdiv : T / n = (T - n) / n + 1).
  { replace T with (T - n + 1 * n) at 1 by lia. rewrite Z.div_add by lia. reflexivity. }
  assert (Hpos : 0 <= (T - n) / n) by (apply Z.div_pos; lia).
  rewrite Hdiv, Z2Nat.inj_add by lia. change (Z.to_nat 1) with 1%nat.
  rewrite Nat.add_1_r. cbn [drop]. apply IH.
Qed.

Lemma lsb_stream_take (n : Z) (k : nat) (chs : list Z) :
  0 <= n -> (k <= length chs)%nat ->
  lsb_stream n (take k chs) = lsb_stream n chs mod 2 ^ (n * Z.of_nat k).
Proof.
  intros Hn Hk. rewrite <- (take_drop k chs) at 2.
  rewrite lsb_stream_app by lia.
  pose proof (lsb_stream_range n (take k chs) Hn) as Hr.
  rewrite length_take, Nat.min_l in * by lia.
  rewrite (Z.mul_comm (2 ^ (n * Z.of_nat k))).
  rewrite Z.mod_add by (pose proof (pow2_pos (n * Z.of_nat k)); lia).
  symmetry. apply Z.mod_small. exact Hr.
Qed.

(** Writing a stream of zeros clears the low bits. *)
Lemma write_stream_zero (n T : Z) (chs : list Z) :
  1 <= n ->
  write_stream n 0 T chs =
  map (fun c => Z.land c (and_mask 0 n)) (take (Z.to_nat (T / n)) chs) ++
  drop (Z.to_nat (T / n)) chs.
Proof.
  intros Hn. revert T. induction chs as [|c chs IH]; intros T.
  - rewrite take_nil, drop_nil. reflexivity.
  - cbn [write_stream]. destruct (Z.leb_spec n T) as [Hle|Hlt].
    + assert (Hdiv : T / n = (T - n) / n + 1).
      { replace T with (T - n + 1 * n) at 1 by lia. rewrite Z.div_add by lia. reflexivity. }
      assert (Hpos : 0 <= (T - n) / n) by (apply Z.div_pos; lia).
      rewrite Hdiv, Z2Nat.inj_add by lia. change (Z.to_nat 1) with 1%nat.
      rewrite Nat.add_1_r. cbn [take drop map app].
      rewrite Z.mod_0_l by (pose proof (pow2_pos n); lia).
      rewrite Z.div_0_l by (pose proof (pow2_pos n); lia).
      unfold put_lsb. rewrite Z.lor_0_r. f_equal. apply IH.
    + assert (Hk : Z.to_nat (T / n) = 0%nat).
      { destruct (Z_lt_le_dec T 0).
        - assert (T / n < 0) by (apply Z.div_lt_upper_bound; lia). lia.
        - rewrite Z.div_small by lia. reflexivity. }
      rewrite Hk. reflexivity.
Qed.

Lemma bits_in_max_filesize_im_size (n : Z) (im im' : Image) :
  im_size im' = im_size im ->
  bits_in_max_filesize n im' = bits_in_max_filesize n im /\
  max_bits_to_hide n im' = max_bits_to_hide n im.
Proof.
  intros Hsz. unfold bits_in_max_filesize, max_bits_to_hide. rewrite Hsz. auto.
Qed.

Lemma wf_channels (im : Image) :
  wf_image im ->
  length (channels im) = (3 * length (pixels im))%nat /\
  Z.of_nat (length (channels im)) = 3 * fst (im_size im) * snd (im_size im) /\
  Forall (fun c => 0 <= c < 256) (channels im).
Proof.
  intros (Hw & Hh & Hlen & Hpix). unfold channels.
  assert (Hl : length (concat (pixels im)) = (3 * length (pixels im))%nat).
  { clear Hlen. induction Hpix as [|p ps [Hp _] _ IH]; [reflexivity|].
    cbn [concat length]. rewrite length_app, Hp, IH. lia. }
  split; [exact Hl|]. split; [rewrite Hl, Hlen; nia|].
  clear Hlen Hl. induction Hpix as [|p ps [_ Hp] _ IH]; [constructor|].
  cbn [concat]. apply Forall_app. split; assumption.
Qed.

(** ** Hiding, then recovering, when the stream ends on a channel *)

Lemma stream_value_range (hb : Z) (file : list byte) :
  0 <= hb -> Z.of_nat (length file) < 2 ^ hb ->
  0 <= Z.of_nat (length file) + 2 ^ hb * le_value file
    < 2 ^ (hb + 8 * Z.of_nat (length file)).
Proof.
  intros Hhb HL. pose proof (le_value_range file) as Hle.
  pose proof (pow2_pos hb Hhb). rewrite Z.pow_add_r by lia. nia.
Qed.

Lemma file_size_fits (n : Z) (im : Image) (L : Z) :
  0 <= L <= max_bits_to_hide n im -> L < 2 ^ bits_in_max_filesize n im.
Proof.
  intros HL. unfold bits_in_max_filesize.
  destruct (Z.eq_dec (max_bits_to_hide n im) 0) as [H0|Hne].
  - rewrite H0 in *. simpl. lia.
  - pose proof (bit_length_bounds (max_bits_to_hide n im) ltac:(lia)). lia.
Qed.

(** X1. Round trip.  For [num_lsb] in [1,8] and a well-formed image whose
    header ends before the last column of the first row, if the header and
    the file fit in the image and their number of bits is a multiple of
    [num_lsb], then hiding the file and recovering from the image gives back
    the file, byte for byte. *)
Theorem roundtrip_aligned (n : Z) (im : Image) (file : list byte) :
  1 <= n <= 8 -> wf_image im -> 0 < snd (im_size im) ->
  pixels_used_for_filesize n im < fst (im_size im) ->
  bits_in_max_filesize n im + 8 * Z.of_nat (length file) <= max_bits_to_hide n im ->
  (bits_in_max_filesize n im + 8 * Z.of_nat (length file)) mod n = 0 ->
  let steg := image (fst (hide_data n im file)) in
  snd (hide_data n im file) = Finished /\
  snd (recover_data n steg) = Finished /\
  output_file (fst (recover_data n steg)) = file.
Proof.
  intros Hn Hwf Hh Hp Hcap Hal steg.
  pose proof (pixels_used_nonneg n im ltac:(lia)) as Hp0.
  assert (Hw : 0 < fst (im_size im)) by lia.
  destruct (hide_data_returns n Hn im file Hwf Hw) as (Hfin & Hwf' & Hsz).
  destruct (hide_data_channels n Hn im file Hwf Hw) as (_ & _ & Hch).
  fold steg in Hwf', Hsz, Hch.
  destruct (bits_in_max_filesize_im_size n im steg Hsz) as [Hhb' Hcap'].
  pose proof (pixels_used_im_size n im steg Hsz) as Hp'.
  set (hb := bits_in_max_filesize n im) in *.
  set (L := Z.of_nat (length file)) in *.
  set (V := L + 2 ^ hb * le_value file) in *.
  set (T := hb + 8 * L) in *.
  assert (Hhb0 : 0 <= hb) by (apply bit_length_nonneg).
  assert (HL : L < 2 ^ hb) by (apply file_size_fits; subst L T; lia).
  pose proof (stream_value_range hb file Hhb0 HL) as HV. fold L V T in HV.
  destruct (wf_channels im Hwf) as (_ & Hlen & _).
  (* the stream of the image made, up to [T] bits *)
  assert (HS : lsb_stream n (channels steg) mod 2 ^ T = V).
  { rewrite Hch.
    pose proof (lsb_stream_write_stream n (Z.to_nat (T / n)) V T (channels im) Hn) as H.
    assert (HT : n * Z.of_nat (Z.to_nat (T / n)) = T).
    { rewrite Z2Nat.id by (apply Z.div_pos; subst T L; lia).
      symmetry. apply Z_div_exact_2; lia. }
    rewrite HT in H. rewrite H; [apply Z.mod_small; exact HV|lia|].
    unfold max_bits_to_hide in Hcap.
    assert (T / n <= 3 * fst (im_size im) * snd (im_size im))
      by (apply Z.div_le_upper_bound; lia).
    lia. }
  (* the header read back *)
  assert (HB : lsb_stream n (channels steg) mod 2 ^ bits_in_max_filesize n steg = L).
  { rewrite Hhb'.
    pose proof (div_mod_window (lsb_stream n (channels steg)) T 0 hb
                  ltac:(lia) Hhb0 ltac:(subst T L; lia)) as Hwin.
    rewrite !Z.div_1_r in Hwin. rewrite <- Hwin, HS. subst V.
    rewrite (Z.mul_comm (2 ^ hb)), Z.mod_add by (pose proof (pow2_pos hb); lia).
    apply Z.mod_small. subst L. lia. }
  destruct (recover_data_stream n steg Hn Hwf') as (st & Hrun & _ & Hout).
  - rewrite Hsz. exact Hh.
  - rewrite Hp', Hsz. exact Hp.
  - rewrite HB, Hhb', Hcap'. exact Hcap.
  - rewrite Hrun. cbn [fst snd]. split; [exact Hfin|]. split; [reflexivity|].
    rewrite Hout, HB, Hhb'. subst L. rewrite Nat2Z.id.
    rewrite <- (le_bytes_le_value file) at 2.
    apply le_bytes_mod.
    pose proof (div_mod_window (lsb_stream n (channels steg)) T hb
                  (8 * Z.of_nat (length file)) Hhb0 ltac:(lia) ltac:(subst T; lia)) as Hwin.
    rewrite <- Hwin, HS. subst V.
    rewrite (Z.mul_comm (2 ^ hb)), Z.div_add, Z.div_small
      by (pose proof (pow2_pos hb); lia).
    reflexivity.
Qed.

Lemma roundtrip_aligned_witness :
  let steg := image (fst (hide_data 1 (blank 4 1 255) [x41])) in
  snd (hide_data 1 (blank 4 1 255) [x41]) = Finished /\
  snd (recover_data 1 steg) = Finished /\
  output_file (fst (recover_data 1 steg)) = [x41].
Proof.
  apply (roundtrip_aligned 1 (blank 4 1 255) [x41]).
  - lia.
  - apply wf_imageb_correct. vm_compute. reflexivity.
  - vm_compute. reflexivity.
  - vm_compute. reflexivity.
  - vm_compute. discriminate.
  - vm_compute. reflexivity.
Defined.

(** ** What [hide_data] does to an image *)

(** X2. On a well-formed RGB image with a column, and for any file at all
    (there is no capacity check), [hide_data] returns without raising; the
    image keeps its size and stays well formed, and every channel keeps its
    high [8 - num_lsb] bits. *)
Theorem hide_data_frame (n : Z) (im : Image) (file : list byte) :
  1 <= n <= 8 -> wf_image im -> 0 < fst (im_size im) ->
  let r := hide_data n im file in
  snd r = Finished /\
  im_size (image (fst r)) = im_size im /\
  wf_image (image (fst r)) /\
  Forall2 (fun c c' => Z.shiftr c' n = Z.shiftr c n /\ 0 <= c' < 256)
    (channels im) (channels (image (fst r))).
Proof.
  intros Hn Hwf Hw r. subst r.
  destruct (hide_data_returns n Hn im file Hwf Hw) as (Hfin & Hwf' & Hsz).
  destruct (hide_data_channels n Hn im file Hwf Hw) as (_ & _ & Hch).
  split; [exact Hfin|]. split; [exact Hsz|]. split; [exact Hwf'|].
  rewrite Hch. apply write_stream_frame; [exact Hn|].
  apply wf_channels. exact Hwf.
Qed.

Lemma hide_data_frame_witness :
  let r := hide_data 2 (blank 4 1 255) [x41; x42; x43] in
  snd r = Finished /\
  im_size (image (fst r)) = im_size (blank 4 1 255) /\
  wf_image (image (fst r)) /\
  Forall2 (fun c c' => Z.shiftr c' 2 = Z.shiftr c 2 /\ 0 <= c' < 256)
    (channels (blank 4 1 255)) (channels (image (fst r))).
Proof.
  apply (hide_data_frame 2 (blank 4 1 255) [x41; x42; x43]).
  - lia.
  - apply wf_imageb_correct. vm_compute. reflexivity.
  - vm_compute. reflexivity.
Defined.

(** X3. What [hide_data] leaves in the channels.  The stream is the header
    (the size of the file, on [header_bits] bits) followed by the bytes of
    the file, low bits first.  The first [k] channels, [k] being the number
    of whole groups of [num_lsb] bits of the stream or the number of
    channels if that is less, carry the first [num_lsb * k] bits of the
    stream in their low bits; the channels after them are untouched.  So
    the last [(header_bits + 8 L) mod num_lsb] bits of the stream are never
    written, and when the stream is longer than the capacity the image
    carries its first [capacity] bits. *)
Theorem hide_data_writes_stream (n : Z) (im : Image) (file : list byte) :
  1 <= n <= 8 -> wf_image im -> 0 < fst (im_size im) ->
  let hb := bits_in_max_filesize n im in
  let L := Z.of_nat (length file) in
  let V := L + 2 ^ hb * le_value file in
  let steg := image (fst (hide_data n im file)) in
  let k := Nat.min (Z.to_nat ((hb + 8 * L) / n)) (length (channels im)) in
  length (channels steg) = length (channels im) /\
  lsb_stream n (take k (channels steg)) = V mod 2 ^ (n * Z.of_nat k) /\
  drop k (channels steg) = drop k (channels im) /\
  (max_bits_to_hide n im <= hb + 8 * L ->
   lsb_stream n (channels steg) = V mod 2 ^ max_bits_to_hide n im).
Proof.
  intros Hn Hwf Hw hb L V steg k.
  destruct (hide_data_channels n Hn im file Hwf Hw) as (_ & _ & Hch).
  fold steg hb L V in Hch.
  assert (Hhb0 : 0 <= hb) by apply bit_length_nonneg.
  assert (HT0 : 0 <= (hb + 8 * L) / n) by (apply Z.div_pos; subst L; lia).
  assert (Hlen : length (channels steg) = length (channels im))
    by (rewrite Hch; apply write_stream_length).
  assert (Hk : n * Z.of_nat k <= hb + 8 * L).
  { assert (Z.of_nat k <= (hb + 8 * L) / n) by (subst k; lia).
    pose proof (Z.mul_div_le (hb + 8 * L) n ltac:(lia)). nia. }
  assert (Hstream : lsb_stream n (take k (channels steg)) = V mod 2 ^ (n * Z.of_nat k)).
  { rewrite lsb_stream_take by (subst k; lia).
    rewrite Hch. apply lsb_stream_write_stream; [exact Hn|exact Hk|subst k; lia]. }
  split; [exact Hlen|]. split; [exact Hstream|]. split.
  - destruct (Nat.le_ge_cases (Z.to_nat ((hb + 8 * L) / n)) (length (channels im))) as [Hle|Hge].
    + subst k. rewrite Nat.min_l by exact Hle. rewrite Hch. apply write_stream_drop. lia.
    + subst k. rewrite Nat.min_r by exact Hge. rewrite !drop_ge by lia. reflexivity.
  - intros Hover. destruct (wf_channels im Hwf) as (_ & Hl & _).
    unfold max_bits_to_hide in *.
    assert (Hkl : k = length (channels im)).
    { subst k. apply Nat.min_r.
      assert (3 * fst (im_size im) * snd (im_size im) <= (hb + 8 * L) / n)
        by (apply Z.div_le_lower_bound; lia).
      lia. }
    rewrite Hkl in Hstream. rewrite <- Hlen, take_ge in Hstream by lia.
    rewrite Hstream. do 2 f_equal. rewrite Hlen. lia.
Qed.

Lemma hide_data_writes_stream_witness :
  let hb := bits_in_max_filesize 2 (blank 4 1 255) in
  let L := Z.of_nat (length [x41]) in
  let V := L + 2 ^ hb * le_value [x41] in
  let steg := image (fst (hide_data 2 (blank 4 1 255) [x41])) in
  let k := Nat.min (Z.to_nat ((hb + 8 * L) / 2)) (length (channels (blank 4 1 255))) in
  length (channels steg) = length (channels (blank 4 1 255)) /\
  lsb_stream 2 (take k (channels steg)) = V mod 2 ^ (2 * Z.of_nat k) /\
  drop k (channels steg) = drop k (channels (blank 4 1 255)) /\
  (max_bits_to_hide 2 (blank 4 1 255) <= hb + 8 * L ->
   lsb_stream 2 (channels steg) = V mod 2 ^ max_bits_to_hide 2 (blank 4 1 255)).
Proof.
  apply (hide_data_writes_stream 2 (blank 4 1 255) [x41]).
  - lia.
  - apply wf_imageb_correct. vm_compute. reflexivity.
  - vm_compute. reflexivity.
Defined.

(** X4. Hiding an empty file: the header is 0, so the low [num_lsb] bits
    of the first [header_bits / num_lsb] channels are cleared and every
    other channel is left as it was. *)
Theorem hide_data_empty_file (n : Z) (im : Image) :
  1 <= n <= 8 -> wf_image im -> 0 < fst (im_size im) ->
  let k := Z.to_nat (bits_in_max_filesize n im / n) in
  snd (hide_data n im []) = Finished /\
  channels (image (fst (hide_data n im []))) =
    map (fun c => Z.land c (and_mask 0 n)) (take k (channels im)) ++
    drop k (channels im).
Proof.
  intros Hn Hwf Hw k.
  destruct (hide_data_channels n Hn im [] Hwf Hw) as (Hfin & _ & Hch).
  split; [exact Hfin|]. rewrite Hch. cbn [length le_value].
  rewrite Z.mul_0_r, !Z.add_0_r. change (Z.of_nat 0) with 0.
  apply write_stream_zero. lia.
Qed.

Lemma hide_data_empty_file_witness :
  let k := Z.to_nat (bits_in_max_filesize 2 (blank 4 1 255) / 2) in
  snd (hide_data 2 (blank 4 1 255) []) = Finished /\
  channels (image (fst (hide_data 2 (blank 4 1 255) []))) =
    map (fun c => Z.land c (and_mask 0 2)) (take k (channels (blank 4 1 255))) ++
    drop k (channels (blank 4 1 255)).
Proof.
  apply (hide_data_empty_file 2 (blank 4 1 255)).
  - lia.
  - apply wf_imageb_correct. vm_compute. reflexivity.
  - vm_compute. reflexivity.
Defined.

(** ** What [recover_data] gives for an image *)

Lemma int_byte_of_Z (v : Z) : int_from_bytes (byte_of_Z v) = v mod 256.
Proof.
  pose proof (struct_pack_byte v) as Hp. unfold struct_pack_1B in Hp.
  pose proof (Z.mod_pos_bound v 256 ltac:(lia)) as Hr.
  replace (0 <=? v mod 256) with true in Hp by (symmetry; apply Z.leb_le; lia).
  replace (v mod 256 <? 256) with true in Hp by (symmetry; apply Z.ltb_lt; lia).
  cbn [andb] in Hp. apply Byte.to_of_N in Hp.
  unfold int_from_bytes. rewrite Hp, Z2N.id by lia. reflexivity.
Qed.

Lemma le_bytes_lookup (k : nat) (v : Z) (j : nat) (c : byte) :
  le_bytes k v !! j = Some c ->
  int_from_bytes c = (v / 2 ^ (8 * Z.of_nat j)) mod 256.
Proof.
  revert v j. induction k as [|k IH]; intros v j Hj; [discriminate|].
  destruct j as [|j]; cbn [le_bytes] in Hj.
  - injection Hj as <-. rewrite int_byte_of_Z. simpl. rewrite Z.div_1_r. reflexivity.
  - apply IH in Hj. rewrite Hj.
    rewrite Z.div_div by (pose proof (pow2_pos (8 * Z.of_nat j)); lia).
    rewrite Nat2Z.inj_succ.
    replace (8 * Z.succ (Z.of_nat j)) with (8 + 8 * Z.of_nat j) by lia.
    rewrite Z.pow_add_r by lia. reflexivity.
Qed.

(** X5. What [recover_data] writes.  Take the low [num_lsb] bits of the
    channels of a well-formed image, first channel lowest, as one number
    [S].  When the header's pixels end before the last column of the first
    row, the header read is [B = S mod 2^header_bits]; and when the image
    has room for [B] bytes after the header, [recover_data] returns having
    written [B] bytes, of which byte [j] is bits [header_bits + 8 j ..
    header_bits + 8 j + 7] of [S]. *)
Theorem recover_data_reads_stream (n : Z) (im : Image) :
  1 <= n <= 8 -> wf_image im -> 0 < snd (im_size im) ->
  pixels_used_for_filesize n im < fst (im_size im) ->
  let hb := bits_in_max_filesize n im in
  let S := lsb_stream n (channels im) in
  let B := S mod 2 ^ hb in
  hb + 8 * B <= max_bits_to_hide n im ->
  let r := recover_data n im in
  snd r = Finished /\
  bytes_to_recover (pop_header n im (fst (recover_header n im))) = B /\
  Z.of_nat (length (output_file (fst r))) = B /\
  forall (j : nat) (c : byte),
    output_file (fst r) !! j = Some c ->
    int_from_bytes c = (S / 2 ^ (hb + 8 * Z.of_nat j)) mod 256.
Proof.
  intros Hn Hwf Hh Hp hb S B Hcap r. subst r.
  destruct (recover_data_stream n im Hn Hwf Hh Hp Hcap) as (st & Hrun & HB & Hout).
  fold hb S B in HB, Hout.
  assert (Hhb0 : 0 <= hb) by apply bit_length_nonneg.
  assert (HB0 : 0 <= B) by (apply Z.mod_pos_bound, pow2_pos; exact Hhb0).
  rewrite Hrun. cbn [fst snd]. split; [reflexivity|]. split; [exact HB|].
  rewrite Hout. split; [rewrite le_bytes_length; lia|].
  intros j c Hj. apply le_bytes_lookup in Hj. rewrite Hj.
  rewrite Z.div_div, <- Z.pow_add_r by (try apply pow2_pos; lia). reflexivity.
Qed.

Lemma recover_data_reads_stream_witness :
  let im := image (fst (hide_data 1 (blank 4 1 255) [x41])) in
  let hb := bits_in_max_filesize 1 im in
  let S := lsb_stream 1 (channels im) in
  let B := S mod 2 ^ hb in
  let r := recover_data 1 im in
  snd r = Finished /\
  bytes_to_recover (pop_header 1 im (fst (recover_header 1 im))) = B /\
  Z.of_nat (length (output_file (fst r))) = B /\
  forall (j : nat) (c : byte),
    output_file (fst r) !! j = Some c ->
    int_from_bytes c = (S / 2 ^ (hb + 8 * Z.of_nat j)) mod 256.
Proof.
  intros im. apply (recover_data_reads_stream 1 im).
  - lia.
  - apply wf_imageb_correct. vm_compute. reflexivity.
  - vm_compute. reflexivity.
  - vm_compute. reflexivity.
  - vm_compute. discriminate.
Defined.

(** X6. In an image no wider than the number of pixels of its header, no
    file comes back: the header loop wraps on [x > width], so the decoder
    reads a pixel at column [x = width], outside the image, before it has
    written anything.  Recovering from what [hide_data] made of any image
    of that size and any file writes nothing. *)
Theorem roundtrip_fails_in_narrow_image (n : Z) (im : Image) (file : list byte) :
  1 <= n <= 8 ->
  0 <= fst (im_size im) <= pixels_used_for_filesize n im ->
  let steg := image (fst (hide_data n im file)) in
  output_file (fst (recover_data n steg)) = [] /\
  (file <> [] -> output_file (fst (recover_data n steg)) <> file) /\
  (snd (recover_data n steg) = Finished \/ snd (recover_data n steg) = Raised IndexError).
Proof.
  intros Hn Hw steg.
  pose proof (hide_data_im_size n im file) as Hsz. fold steg in Hsz.
  destruct (recover_data_header_row n steg ltac:(lia)) as (Hout & _ & Hend).
  - rewrite (pixels_used_im_size n im steg Hsz), Hsz. exact Hw.
  - split; [exact Hout|]. split; [|exact Hend].
    intros Hne. rewrite Hout. congruence.
Qed.

Lemma roundtrip_fails_in_narrow_image_witness :
  let steg := image (fst (hide_data 2 (blank 1 9 0) [x41])) in
  output_file (fst (recover_data 2 steg)) = [] /\
  ([x41] <> [] -> output_file (fst (recover_data 2 steg)) <> [x41]) /\
  (snd (recover_data 2 steg) = Finished \/ snd (recover_data 2 steg) = Raised IndexError).
Proof.
  apply (roundtrip_fails_in_narrow_image 2 (blank 1 9 0) [x41]).
  - lia.
  - vm_compute. split; discriminate.
Defined.

(** X7. The header is wide enough for the size of any file that fits, and
    the decoder reads just the pixels the header needs: every size up to
    the capacity is below [2^header_bits], and [pixels_used_for_filesize]
    is the least number of pixels whose [3 * num_lsb] bits each hold
    [header_bits] bits. *)
Theorem header_field_sizes (n : Z) (im : Image) :
  1 <= n ->
  let hb := bits_in_max_filesize n im in
  let p := pixels_used_for_filesize n im in
  (forall L, 0 <= L <= max_bits_to_hide n im -> L < 2 ^ hb) /\
  hb <= 3 * n * p /\
  (forall q, hb <= 3 * n * q -> p <= q).
Proof.
  intros Hn hb p. split; [|split].
  - intros L HL. apply file_size_fits. exact HL.
  - subst p. unfold pixels_used_for_filesize. fold hb. apply ceil_div_ge. lia.
  - intros q Hq. subst p. unfold pixels_used_for_filesize, ceil_div. fold hb.
    assert ((hb + 3 * n - 1) / (3 * n) < q + 1); [|lia].
    apply Z.div_lt_upper_bound; lia.
Qed.

Lemma header_field_sizes_witness :
  let hb := bits_in_max_filesize 2 (blank 100 100 0) in
  let p := pixels_used_for_filesize 2 (blank 100 100 0) in
  (forall L, 0 <= L <= max_bits_to_hide 2 (blank 100 100 0) -> L < 2 ^ hb) /\
  hb <= 3 * 2 * p /\
  (forall q, hb <= 3 * 2 * q -> p <= q).
Proof. apply (header_field_sizes 2 (blank 100 100 0)). lia. Defined.

(** ** The mask and the buffer *)

Lemma and_mask_ldiff (index n : Z) :
  0 <= index -> 0 <= n -> index + n <= 8 ->
  and_mask index n = Z.ldiff (Z.ones 8) (Z.shiftl (Z.ones n) index).
Proof.
  intros Hi Hn H8. unfold and_mask.
  change (Z.shiftl 1 n - 1) with (Z.ones n). change 255 with (Z.ones 8).
  apply Z.sub_nocarry_ldiff.
  apply Z.bits_inj'. intros i Hi0.
  rewrite Z.ldiff_spec, Z.shiftl_spec, Z.bits_0 by lia.
  destruct (Z.ltb_spec i 8) as [Hlt|Hge].
  - rewrite (Z.testbit_ones 8) by lia.
    replace (0 <=? i) with true by (symmetry; apply Z.leb_le; lia).
    replace (i <? 8) with true by (symmetry; apply Z.ltb_lt; lia).
    apply andb_false_r.
  - destruct (Z.ltb_spec (i - index) 0).
    + rewrite Z.testbit_neg_r by lia. reflexivity.
    + rewrite Z.testbit_ones by lia.
      replace (i - index <? n) with false by (symmetry; apply Z.ltb_ge; lia).
      rewrite andb_false_r. reflexivity.
Qed.

(** X8. [and_mask index n], for a field of [n] bits from bit [index]
    inside a byte, is a byte; ANDed with a byte it sets the bits [index ..
    index + n - 1] to 0 and keeps the others.  [and_mask 3 2] is
    0b11100111 = 231. *)
Theorem and_mask_clears_field (index n c : Z) :
  0 <= index -> 0 <= n -> index + n <= 8 -> 0 <= c < 256 ->
  0 <= and_mask index n <= 255 /\
  (forall i, 0 <= i ->
     Z.testbit (Z.land c (and_mask index n)) i =
     Z.testbit c i && negb ((index <=? i) && (i <? index + n))) /\
  and_mask 3 2 = 231.
Proof.
  intros Hi Hn H8 Hc. split; [|split; [|reflexivity]].
  - unfold and_mask. rewrite shiftl_1, Z.shiftl_mul_pow2 by lia.
    pose proof (pow2_pos n Hn). pose proof (pow2_pos index Hi).
    assert (2 ^ n * 2 ^ index <= 256).
    { rewrite <- Z.pow_add_r by lia. change 256 with (2 ^ 8).
      apply Z.pow_le_mono_r; lia. }
    nia.
  - intros i Hi0. rewrite and_mask_ldiff by lia.
    rewrite Z.land_spec, Z.ldiff_spec, Z.shiftl_spec by lia.
    destruct (Z.ltb_spec i 8) as [Hlt|Hge].
    + rewrite (Z.testbit_ones 8) by lia.
      replace (0 <=? i) with true by (symmetry; apply Z.leb_le; lia).
      replace (i <? 8) with true by (symmetry; apply Z.ltb_lt; lia).
      cbn [andb]. f_equal. f_equal.
      destruct (Z.leb_spec index i) as [Hge|Hlt'].
      * rewrite Z.testbit_ones by lia.
        replace (0 <=? i - index) with true by (symmetry; apply Z.leb_le; lia).
        cbn [andb]. destruct (Z.ltb_spec (i - index) n), (Z.ltb_spec i (index + n));
          try reflexivity; lia.
      * rewrite Z.testbit_neg_r by lia. reflexivity.
    + rewrite (testbit_byte_high c i) by lia. reflexivity.
Qed.

Lemma and_mask_clears_field_witness :
  0 <= and_mask 3 2 <= 255 /\
  (forall i, 0 <= i ->
     Z.testbit (Z.land 255 (and_mask 3 2)) i =
     Z.testbit 255 i && negb ((3 <=? i) && (i <? 3 + 2))) /\
  and_mask 3 2 = 231.
Proof. apply (and_mask_clears_field 3 2 255); lia. Defined.

(** X9. The buffer is a queue of bits.  Popping [m] bits and then [k]
    bits is popping [m + k] bits, the first pop giving the low bits.  And a
    byte pushed onto a buffer that holds [length] bits (value below
    [2^length]) comes out after them: popping [length] bits gives the old
    value back, the next 8 bits are the byte, and the buffer is then back
    in its reset state. *)
Theorem buffer_is_a_queue (b : BitBuffer) (m k : Z) (c : byte) (file : list byte) :
  0 <= m -> 0 <= k -> buffer_inv b ->
  let p1 := read_bits_from_buffer m b in
  let p2 := read_bits_from_buffer k (snd p1) in
  let p12 := read_bits_from_buffer (m + k) b in
  let f := read_byte_to_buffer (c :: file) b in
  let q1 := read_bits_from_buffer (buffer_length b) (snd f) in
  let q2 := read_bits_from_buffer 8 (snd q1) in
  (snd p2 = snd p12 /\ fst p12 = fst p1 + 2 ^ m * fst p2) /\
  (fst f = file /\ fst q1 = buffer b /\ fst q2 = int_from_bytes c /\
   snd q2 = reset_buffer).
Proof.
  intros Hm Hk [Hlen Hval]. cbn zeta. cbn [read_bits_from_buffer read_byte_to_buffer fst snd
                                       buffer buffer_length].
  pose proof (pow2_pos m Hm). pose proof (pow2_pos k Hk).
  pose proof (pow2_pos (buffer_length b) Hlen).
  pose proof (int_from_bytes_range c) as Hc.
  rewrite !shiftl_1, !Z.shiftr_div_pow2, Z.shiftl_mul_pow2 by lia.
  split; [split|split_and!].
  - f_equal; [|lia]. rewrite Z.div_div, <- Z.pow_add_r by lia. reflexivity.
  - rewrite Z.pow_add_r, Z.rem_mul_r by lia. reflexivity.
  - reflexivity.
  - rewrite Z.mod_add by lia. apply Z.mod_small. exact Hval.
  - rewrite Z.div_add, Z.div_small by lia. change (2 ^ 8) with 256.
    apply Z.mod_small. lia.
  - unfold reset_buffer. f_equal; [|lia].
    rewrite Z.div_add, (Z.div_small (buffer b)) by lia. change (2 ^ 8) with 256.
    apply Z.div_small. lia.
Qed.

Lemma buffer_is_a_queue_witness :
  let b := {| buffer := 5; buffer_length := 3 |} in
  let p1 := read_bits_from_buffer 1 b in
  let p2 := read_bits_from_buffer 2 (snd p1) in
  let p12 := read_bits_from_buffer (1 + 2) b in
  let f := read_byte_to_buffer (xa7 :: [x41]) b in
  let q1 := read_bits_from_buffer (buffer_length b) (snd f) in
  let q2 := read_bits_from_buffer 8 (snd q1) in
  (snd p2 = snd p12 /\ fst p12 = fst p1 + 2 ^ 1 * fst p2) /\
  (fst f = [x41] /\ fst q1 = buffer b /\ fst q2 = int_from_bytes xa7 /\
   snd q2 = reset_buffer).
Proof.
  apply (buffer_is_a_queue {| buffer := 5; buffer_length := 3 |} 1 2 xa7 [x41]);
    [lia|lia|]. unfold buffer_inv. simpl. lia.
Defined.

(** ** The report of [analysis] *)

(** X10. The numbers [analysis] prints are safe to go by: a file no
    larger than the bytes it says can be hidden, less the bytes of the
    filesize tag, fits in the image with its header
    ([header_bits + 8 L <= capacity]). *)
Theorem analysis_fits (n : Z) (im : Image) (file : list byte) :
  let '(_, can_hide, size, tag) := analysis n im file in
  size <= can_hide - tag ->
  bits_in_max_filesize n im + 8 * Z.of_nat (length file) <= max_bits_to_hide n im.
Proof.
  unfold analysis. intros Hfit.
  pose proof (ceil_div_ge (bits_in_max_filesize n im) 8 ltac:(lia)).
  pose proof (Z.mul_div_le (max_bits_to_hide n im) 8 ltac:(lia)). lia.
Qed.

Lemma analysis_fits_witness :
  bits_in_max_filesize 2 (blank 4 4 0) + 8 * Z.of_nat (length [x41; x42]) <=
  max_bits_to_hide 2 (blank 4 4 0).
Proof. apply (analysis_fits 2 (blank 4 4 0) [x41; x42]). vm_compute. discriminate. Defined.
